(** * SerialReader: the packet-framing decoder of firmware_v2

    A shallow embedding of [src/firmware_v2/SerialReader.cpp] and the
    properties of its byte-at-a-time state machine.

    Wire format handled by the decoder:
    [HEADER HEADER LEN PAYLOAD(LEN-1 bytes) CHKSUM]. *)

From Stdlib Require Import ZArith Lia.
From Stdlib Require Import Strings.Byte.
From stdpp Require Import base tactics option list.

Local Open Scope Z_scope.

(** ** Data model *)

(** The enumeration behind [_state]; its six constants are the labels of the
    [switch] in [readUpdate]. *)
Inductive State : Set :=
  | WAITFORPACKET
  | HEADER1
  | HEADER2
  | PAYLOAD
  | CHKSUM
  | WAITFORHANDLING.

Global Instance State_eq_dec : EqDecision State.
Proof. solve_decision. Defined.

(** Numeric value of a byte delivered by [bt1.read()]: 0..255. *)
Definition byteZ (b : byte) : Z := Z.of_N (Byte.to_N b).

(** Modelled from the spec: the declaration of [_chksum] lives in
    SerialReader.h, which is not part of the sources; the running checksum is
    an unsigned 8-bit accumulator, so every assignment to it is truncated
    modulo 256. *)
Definition wrap8 (z : Z) : Z := z mod 256.

(** Modelled from the spec: the member declarations of the class are in
    SerialReader.h.  [_currPlSz] and [_plCntr] are plain [int]s (the first one
    holds the sentinel -1); while a frame is in progress they stay between 0
    and the capacity of the buffer, so the width of [int] plays no part.
    [payload] is the fixed-capacity byte buffer; the length of the list is
    the capacity of the array. *)
Record SerialReader : Set := mkSerialReader {
  _state : State;
  _currByte : byte;
  _currPlSz : Z;
  _plCntr : Z;
  _chksum : Z;
  payload : list byte
}.

Definition set_state (st : State) (s : SerialReader) : SerialReader :=
  mkSerialReader st (_currByte s) (_currPlSz s) (_plCntr s) (_chksum s) (payload s).

Definition set_currByte (b : byte) (s : SerialReader) : SerialReader :=
  mkSerialReader (_state s) b (_currPlSz s) (_plCntr s) (_chksum s) (payload s).

(** What a call of the [int] function [readUpdate] hands back: the value of an
    executed [return] statement, or nothing when control leaves the [while]
    loop and reaches the closing brace of the function. *)
Inductive Returned : Set :=
  | Ret (v : Z)
  | NoReturn.

Global Instance Returned_eq_dec : EqDecision Returned.
Proof. solve_decision. Defined.

Section Decoder.

(** The two macros of SerialReader.h used by the decoder; the header is not
    part of the sources, so their values are parameters.  The header value is
    one byte. *)
Variable INCOMING_HEADER_BYTE : byte.
Variable maxPayloadSize : Z.

(** *** The [switch (_state)] of [readUpdate], lines 16-73.

    [None] stands for the one undefined operation the body can perform: the
    store [payload[_plCntr++] = _currByte] with [_plCntr] outside the array. *)
Definition switch_state (s : SerialReader) : option SerialReader :=
  let b := byteZ (_currByte s) in
  match _state s with
  | WAITFORPACKET =>
      if b =? byteZ INCOMING_HEADER_BYTE
      then Some (set_state HEADER1 s)
      else Some s
  | HEADER1 =>
      if b =? byteZ INCOMING_HEADER_BYTE
      then Some (set_state HEADER2 s)
      else Some (set_state WAITFORPACKET s)
  | HEADER2 =>
      if (b =? 0) || (maxPayloadSize <? b)
      then Some (set_state WAITFORPACKET s)
      else Some (mkSerialReader PAYLOAD (_currByte s) (b - 1) 0
                   (wrap8 (byteZ INCOMING_HEADER_BYTE
                           + byteZ INCOMING_HEADER_BYTE + b))
                   (payload s))
  | PAYLOAD =>
      if (0 <=? _plCntr s) && (_plCntr s <? Z.of_nat (length (payload s)))
      then
        let buf := <[Z.to_nat (_plCntr s) := _currByte s]> (payload s) in
        let cntr := _plCntr s + 1 in
        let sum := wrap8 (_chksum s + b) in
        Some (mkSerialReader
                (if cntr =? _currPlSz s then CHKSUM else PAYLOAD)
                (_currByte s) (_currPlSz s) cntr sum buf)
      else None
  | CHKSUM =>
      if _chksum s =? b
      then Some (set_state WAITFORHANDLING s)
      else Some (set_state WAITFORPACKET s)
  | WAITFORHANDLING => Some s
  end.

(** One iteration of the loop body up to the [switch]: the byte read from
    the serial line is stored in [_currByte], then dispatched. *)
Definition consume (s : SerialReader) (b : byte) : option SerialReader :=
  switch_state (set_currByte b s).

(** Lines 75-79: the value returned after the [switch]. *)
Definition retval (s : SerialReader) : Z :=
  if decide (_state s = WAITFORHANDLING) then _currPlSz s else -1.

(** [readUpdate], lines 10-81.  The second argument is the queue of bytes
    that [bt1] holds ([bt1.available()] is its length, [bt1.read()] pops its
    head).  Both branches after the [switch] return, so the [while] body
    runs at most once; with an empty queue the loop is skipped and the
    function ends without a [return]. *)
Definition readUpdate (s : SerialReader) (bt1 : list byte)
  : option (Returned * SerialReader * list byte) :=
  match bt1 with
  | [] => Some (NoReturn, s, [])
  | b :: rest =>
      match consume s b with
      | Some s' => Some (Ret (retval s'), s', rest)
      | None => None
      end
  end.

(** [payloadHandled], lines 83-86. *)
Definition payloadHandled (s : SerialReader) : SerialReader :=
  mkSerialReader WAITFORPACKET (_currByte s) (-1) (_plCntr s) (_chksum s)
    (payload s).

(** The constructor, lines 7-9: it assigns [_state] and nothing else, so the
    other members keep whatever the storage [mem] of the object held. *)
Definition construct (mem : SerialReader) : SerialReader :=
  set_state WAITFORPACKET mem.

(** Capacity of the [payload] array. *)
Definition capacity (s : SerialReader) : Z := Z.of_nat (length (payload s)).

(** Modelled from the spec: [payload] is declared in SerialReader.h; its
    capacity is the compile-time constant [maxPayloadSize].  A decoder that
    waits for the first header byte with such a buffer: *)
Definition awaiting_sync (s : SerialReader) : Prop :=
  _state s = WAITFORPACKET ∧ capacity s = maxPayloadSize.

(** *** The poll loop of the firmware

    [poll n s bt1] calls [readUpdate] [n] times in a row on the decoder [s]
    and the serial queue [bt1], collecting what each call returned. *)
Fixpoint poll (n : nat) (s : SerialReader) (bt1 : list byte)
  : option (list Returned * SerialReader * list byte) :=
  match n with
  | O => Some ([], s, bt1)
  | S n' =>
      match readUpdate s bt1 with
      | None => None
      | Some (r, s1, bt1') =>
          match poll n' s1 bt1' with
          | None => None
          | Some (rs, s2, bt1'') => Some (r :: rs, s2, bt1'')
          end
      end
  end.

(** The store into [payload] that consuming the byte [b] in state [s]
    performs (line 50), if it performs one: the index and the value. *)
Definition payload_store (s : SerialReader) (b : byte) : option (Z * byte) :=
  match _state s with
  | PAYLOAD => Some (_plCntr s, b)
  | _ => None
  end.

(** The stores into [payload] performed while the bytes [bs] are consumed,
    in order; a store outside the array is listed and ends the trace. *)
Fixpoint stores (s : SerialReader) (bs : list byte) : list (Z * byte) :=
  match bs with
  | [] => []
  | b :: bs' =>
      match payload_store s b with Some w => [w] | None => [] end
      ++ match consume s b with
         | Some s' => stores s' bs'
         | None => []
         end
  end.

(** The effect of a list of stores on an array. *)
Definition apply_stores (ws : list (Z * byte)) (buf : list byte) : list byte :=
  foldl (λ acc w, <[Z.to_nat (fst w) := snd w]> acc) buf ws.

(** Two decoders that are in the same state and, from the length byte on,
    agree on expected length, fill counter and running checksum. *)
Definition control_eq (a b : SerialReader) : Prop :=
  _state a = _state b
  ∧ capacity a = capacity b
  ∧ match _state a with
    | WAITFORPACKET | HEADER1 | HEADER2 => True
    | PAYLOAD | CHKSUM | WAITFORHANDLING =>
        _currPlSz a = _currPlSz b ∧ _plCntr a = _plCntr b ∧ _chksum a = _chksum b
    end.

(** States the firmware can be in: the constructed object, then any
    interleaving of consumed bytes and acknowledgments. *)
Inductive reachable : SerialReader → Prop :=
  | reach_construct mem :
      capacity mem = maxPayloadSize → reachable (construct mem)
  | reach_consume s b s' :
      reachable s → consume s b = Some s' → reachable s'
  | reach_handled s :
      reachable s → reachable (payloadHandled s).

(** *** Frames on the wire *)

Definition sumZ (p : list byte) : Z := foldr (λ b acc, byteZ b + acc) 0 p.

(** The additive checksum of a frame with length byte [len] and payload [p]. *)
Definition packet_sum (len : byte) (p : list byte) : Z :=
  wrap8 (byteZ INCOMING_HEADER_BYTE + byteZ INCOMING_HEADER_BYTE
         + byteZ len + sumZ p).

Definition packet (len : byte) (p : list byte) (chk : byte) : list byte :=
  INCOMING_HEADER_BYTE :: INCOMING_HEADER_BYTE :: len :: p ++ [chk].

(** The three framing errors: a second header byte that is not the header
    value, a length byte that is zero or above [maxPayloadSize], a checksum
    byte that differs from the running checksum. *)
Definition framing_error (s : SerialReader) (b : byte) : Prop :=
  (_state s = HEADER1 ∧ byteZ b ≠ byteZ INCOMING_HEADER_BYTE)
  ∨ (_state s = HEADER2 ∧ (byteZ b = 0 ∨ maxPayloadSize < byteZ b))
  ∨ (_state s = CHKSUM ∧ byteZ b ≠ _chksum s).

(** What holds of the counters whenever a payload is being accumulated,
    awaits its checksum, or awaits the handler. *)
Definition decoder_inv (s : SerialReader) : Prop :=
  capacity s = maxPayloadSize
  ∧ match _state s with
    | PAYLOAD =>
        0 ≤ _plCntr s ≤ maxPayloadSize
        ∧ 0 ≤ _currPlSz s < maxPayloadSize
        ∧ (1 ≤ _currPlSz s → _plCntr s < _currPlSz s)
    | CHKSUM | WAITFORHANDLING =>
        _plCntr s = _currPlSz s ∧ 1 ≤ _currPlSz s < maxPayloadSize
    | _ => True
    end.

(** What the bytes [bs] consumed so far, since the decoder last waited for a
    header, must look like for the decoder to be in its current state. *)
Definition frame_history (s : SerialReader) (bs : list byte) : Prop :=
  match _state s with
  | WAITFORPACKET => True
  | HEADER1 => ∃ pre, bs = pre ++ [INCOMING_HEADER_BYTE]
  | HEADER2 => ∃ pre, bs = pre ++ [INCOMING_HEADER_BYTE; INCOMING_HEADER_BYTE]
  | PAYLOAD =>
      ∃ pre len p,
        bs = pre ++ [INCOMING_HEADER_BYTE; INCOMING_HEADER_BYTE; len] ++ p
        ∧ 1 ≤ byteZ len ≤ maxPayloadSize
        ∧ _currPlSz s = byteZ len - 1
        ∧ _plCntr s = Z.of_nat (length p)
        ∧ _chksum s = packet_sum len p
        ∧ take (length p) (payload s) = p
  | CHKSUM =>
      ∃ pre len p,
        bs = pre ++ [INCOMING_HEADER_BYTE; INCOMING_HEADER_BYTE; len] ++ p
        ∧ 2 ≤ byteZ len ≤ maxPayloadSize
        ∧ Z.of_nat (length p) = byteZ len - 1
        ∧ _currPlSz s = byteZ len - 1
        ∧ _chksum s = packet_sum len p
        ∧ take (length p) (payload s) = p
  | WAITFORHANDLING =>
      ∃ pre len p chk rest,
        bs = pre ++ packet len p chk ++ rest
        ∧ 2 ≤ byteZ len ≤ maxPayloadSize
        ∧ Z.of_nat (length p) = byteZ len - 1
        ∧ _currPlSz s = byteZ len - 1
        ∧ byteZ chk = packet_sum len p
        ∧ take (length p) (payload s) = p
  end.

End Decoder.

(** ** A concrete configuration used in the examples

    Header byte 0xAA, an 8-byte payload buffer, and a decoder object whose
    storage was zeroed before the constructor ran. *)

Definition ex_header : byte := xaa.
Definition ex_maxPayloadSize : Z := 8.

Definition ex_reader : SerialReader :=
  construct (mkSerialReader WAITFORPACKET x00 0 0 0 (replicate 8 x00)).

(** The frame of the specification's scenario (payload 0x10 0x20) with the
    checksum byte 0xF9 that the specification computes for it. *)
Definition spec_frame : list byte := [xaa; xaa; x03; x10; x20; xf9].

(** The same frame with the modulo-256 sum of its bytes, 0x87. *)
Definition ex_frame : list byte := [xaa; xaa; x03; x10; x20; x87].

(** A frame whose length byte announces an empty payload. *)
Definition ex_frame_len1 : list byte := [xaa; xaa; x01; x55].

(** A frame whose length byte is [ex_maxPayloadSize + 1], with 8 payload bytes. *)
Definition ex_frame_len9 : list byte :=
  [xaa; xaa; x09; x01; x02; x03; x04; x05; x06; x07; x08; x81].

(** The decoder after [ex_frame]: payload ready. *)
Definition ex_ready : SerialReader :=
  mkSerialReader WAITFORHANDLING x87 2 2 135
    [x10; x20; x00; x00; x00; x00; x00; x00].

(** The decoder after [ex_frame_len1]: accumulating, one byte stored, none
    expected. *)
Definition ex_stuck : SerialReader :=
  mkSerialReader PAYLOAD x55 0 1 170
    [x55; x00; x00; x00; x00; x00; x00; x00].

(** The decoder after one header byte, after two, after the first payload
    byte of [ex_frame], and after its last payload byte. *)
Definition ex_header1 : SerialReader :=
  mkSerialReader HEADER1 xaa 0 0 0 (replicate 8 x00).

Definition ex_header2 : SerialReader :=
  mkSerialReader HEADER2 xaa 0 0 0 (replicate 8 x00).

Definition ex_midway : SerialReader :=
  mkSerialReader PAYLOAD x10 2 1 103
    [x10; x00; x00; x00; x00; x00; x00; x00].

Definition ex_chksum : SerialReader :=
  mkSerialReader CHKSUM x20 2 2 135
    [x10; x20; x00; x00; x00; x00; x00; x00].

(** ** Properties *)

Section Properties.

Context (INCOMING_HEADER_BYTE : byte) (maxPayloadSize : Z).

Local Abbreviation switch_state := (switch_state INCOMING_HEADER_BYTE maxPayloadSize).
Local Abbreviation consume := (consume INCOMING_HEADER_BYTE maxPayloadSize).
Local Abbreviation readUpdate := (readUpdate INCOMING_HEADER_BYTE maxPayloadSize).
Local Abbreviation poll := (poll INCOMING_HEADER_BYTE maxPayloadSize).
Local Abbreviation stores := (stores INCOMING_HEADER_BYTE maxPayloadSize).
Local Abbreviation reachable := (reachable INCOMING_HEADER_BYTE maxPayloadSize).
Local Abbreviation awaiting_sync := (awaiting_sync maxPayloadSize).
Local Abbreviation framing_error := (framing_error INCOMING_HEADER_BYTE maxPayloadSize).
Local Abbreviation packet := (packet INCOMING_HEADER_BYTE).
Local Abbreviation packet_sum := (packet_sum INCOMING_HEADER_BYTE).
Local Abbreviation HDR := (byteZ INCOMING_HEADER_BYTE).

(** *** Bytes and the 8-bit sum *)

Lemma byteZ_range (b : byte) : 0 ≤ byteZ b < 256.
Proof.
  unfold byteZ. pose proof (Byte.to_N_bounded b). lia.
Qed.

Lemma wrap8_range (z : Z) : 0 ≤ wrap8 z < 256.
Proof. unfold wrap8. apply Z.mod_pos_bound. lia. Qed.

Lemma wrap8_small (z : Z) : 0 ≤ z < 256 → wrap8 z = z.
Proof. unfold wrap8. intros. apply Z.mod_small. lia. Qed.

Lemma wrap8_add_l (a b : Z) : wrap8 (wrap8 a + b) = wrap8 (a + b).
Proof. unfold wrap8. apply Zplus_mod_idemp_l. Qed.

Lemma sumZ_cons (b : byte) (p : list byte) : sumZ (b :: p) = byteZ b + sumZ p.
Proof. reflexivity. Qed.

(** *** The poll loop *)

Lemma poll_app (n m : nat) (s : SerialReader) (bt1 : list byte) :
  poll (n + m) s bt1 =
    match poll n s bt1 with
    | None => None
    | Some (rs1, s1, bt1') =>
        match poll m s1 bt1' with
        | None => None
        | Some (rs2, s2, bt1'') => Some (rs1 ++ rs2, s2, bt1'')
        end
    end.
Proof.
  revert s bt1. induction n as [|n IH]; intros s bt1; simpl.
  - destruct (poll m s bt1) as [[[rs2 s2] q]|]; reflexivity.
  - destruct (readUpdate s bt1) as [[[r s1] q]|]; [|reflexivity].
    rewrite IH.
    destruct (poll n s1 q) as [[[rs1 s1'] q']|]; [|reflexivity].
    destruct (poll m s1' q') as [[[rs2 s2] q'']|]; reflexivity.
Qed.

(** With a byte in the queue, a call consumes exactly that byte, performs
    one transition, and returns [retval] of the new state. *)
Lemma readUpdate_available (s : SerialReader) (b : byte) (rest : list byte) :
  readUpdate s (b :: rest) =
    match consume s b with
    | Some s' => Some (Ret (retval s'), s', rest)
    | None => None
    end.
Proof. reflexivity. Qed.

Lemma consume_capacity (s s' : SerialReader) (b : byte) :
  consume s b = Some s' → capacity s' = capacity s.
Proof.
  unfold consume, switch_state, capacity; simpl.
  destruct (_state s); simpl; intros Hc;
    repeat match type of Hc with
           | context [if ?c then _ else _] => destruct c
           end;
    inversion Hc; subst; simpl; try reflexivity.
  all: by rewrite length_insert.
Qed.

(** *** The transitions, one equation per [case] label *)

Lemma consume_WAITFORPACKET (s : SerialReader) (b : byte) :
  _state s = WAITFORPACKET →
  consume s b =
    Some (if byteZ b =? HDR
          then set_state HEADER1 (set_currByte b s)
          else set_currByte b s).
Proof.
  intros Hs. unfold consume, switch_state. simpl. rewrite Hs.
  by destruct (byteZ b =? HDR).
Qed.

Lemma consume_HEADER1 (s : SerialReader) (b : byte) :
  _state s = HEADER1 →
  consume s b =
    Some (set_state (if byteZ b =? HDR then HEADER2 else WAITFORPACKET)
            (set_currByte b s)).
Proof.
  intros Hs. unfold consume, switch_state. simpl. rewrite Hs.
  by destruct (byteZ b =? HDR).
Qed.

Lemma consume_HEADER2_reject (s : SerialReader) (b : byte) :
  _state s = HEADER2 →
  byteZ b = 0 ∨ maxPayloadSize < byteZ b →
  consume s b = Some (set_state WAITFORPACKET (set_currByte b s)).
Proof.
  intros Hs Hb. unfold consume, switch_state. simpl. rewrite Hs.
  destruct (byteZ b =? 0) eqn:E0; [done|].
  destruct (maxPayloadSize <? byteZ b) eqn:E1; [done|]. lia.
Qed.

Lemma consume_HEADER2_accept (s : SerialReader) (b : byte) :
  _state s = HEADER2 →
  1 ≤ byteZ b ≤ maxPayloadSize →
  consume s b =
    Some (mkSerialReader PAYLOAD b (byteZ b - 1) 0
            (wrap8 (HDR + HDR + byteZ b)) (payload s)).
Proof.
  intros Hs Hb. unfold consume, switch_state. simpl. rewrite Hs.
  destruct (byteZ b =? 0) eqn:E0; [lia|].
  destruct (maxPayloadSize <? byteZ b) eqn:E1; [lia|]. done.
Qed.

Lemma consume_PAYLOAD (s : SerialReader) (b : byte) :
  _state s = PAYLOAD →
  0 ≤ _plCntr s < capacity s →
  consume s b =
    Some (mkSerialReader
            (if _plCntr s + 1 =? _currPlSz s then CHKSUM else PAYLOAD)
            b (_currPlSz s) (_plCntr s + 1) (wrap8 (_chksum s + byteZ b))
            (<[Z.to_nat (_plCntr s) := b]> (payload s))).
Proof.
  intros Hs Hb. unfold consume, switch_state, capacity in *. simpl. rewrite Hs.
  destruct (0 <=? _plCntr s) eqn:E0; [|lia].
  destruct (_plCntr s <? Z.of_nat (length (payload s))) eqn:E1; [|lia]. done.
Qed.

Lemma consume_PAYLOAD_overrun (s : SerialReader) (b : byte) :
  _state s = PAYLOAD →
  ¬ 0 ≤ _plCntr s < capacity s →
  consume s b = None.
Proof.
  intros Hs Hb. unfold consume, switch_state, capacity in *. simpl. rewrite Hs.
  destruct (0 <=? _plCntr s) eqn:E0; [|done].
  destruct (_plCntr s <? Z.of_nat (length (payload s))) eqn:E1; [|done]. lia.
Qed.

Lemma consume_CHKSUM (s : SerialReader) (b : byte) :
  _state s = CHKSUM →
  consume s b =
    Some (set_state (if _chksum s =? byteZ b then WAITFORHANDLING else WAITFORPACKET)
            (set_currByte b s)).
Proof.
  intros Hs. unfold consume, switch_state. simpl. rewrite Hs.
  by destruct (_chksum s =? byteZ b).
Qed.

Lemma consume_WAITFORHANDLING (s : SerialReader) (b : byte) :
  _state s = WAITFORHANDLING →
  consume s b = Some (set_currByte b s).
Proof.
  intros Hs. unfold consume, switch_state. simpl. by rewrite Hs.
Qed.

(** The only way a transition can be undefined is a store outside [payload]. *)
Lemma consume_None_iff (s : SerialReader) (b : byte) :
  consume s b = None ↔
  ∃ i, payload_store s b = Some (i, b) ∧ ¬ 0 ≤ i < capacity s.
Proof.
  unfold payload_store. split.
  - intros Hc. destruct (_state s) eqn:Hs.
    + by rewrite consume_WAITFORPACKET in Hc.
    + by rewrite consume_HEADER1 in Hc.
    + destruct (decide (1 ≤ byteZ b ≤ maxPayloadSize)).
      * by rewrite consume_HEADER2_accept in Hc.
      * pose proof (byteZ_range b).
        rewrite consume_HEADER2_reject in Hc by (done || lia). done.
    + exists (_plCntr s). split; [done|]. intros Hb.
      by rewrite consume_PAYLOAD in Hc.
    + by rewrite consume_CHKSUM in Hc.
    + by rewrite consume_WAITFORHANDLING in Hc.
  - intros (i & Hi & Hb). destruct (_state s) eqn:Hs; try done.
    inversion Hi; subst. by apply consume_PAYLOAD_overrun.
Qed.

(** *** Decoding phase by phase *)

Lemma poll_S (n : nat) (s : SerialReader) (q : list byte) :
  poll (S n) s q =
    match readUpdate s q with
    | None => None
    | Some (r, s1, q1) =>
        match poll n s1 q1 with
        | None => None
        | Some (rs, s2, q2) => Some (r :: rs, s2, q2)
        end
    end.
Proof. reflexivity. Qed.

Lemma poll_cons (n : nat) (s s1 : SerialReader) (b : byte) (q : list byte) :
  consume s b = Some s1 →
  poll (S n) s (b :: q) =
    match poll n s1 q with
    | None => None
    | Some (rs, s2, q') => Some (Ret (retval s1) :: rs, s2, q')
    end.
Proof. intros Hc. by rewrite poll_S, readUpdate_available, Hc. Qed.

Lemma poll_cons_overrun (n : nat) (s : SerialReader) (b : byte) (q : list byte) :
  consume s b = None → poll (S n) s (b :: q) = None.
Proof. intros Hc. by rewrite poll_S, readUpdate_available, Hc. Qed.

Lemma retval_other (s : SerialReader) :
  _state s ≠ WAITFORHANDLING → retval s = -1.
Proof. intros Hs. unfold retval. by destruct (decide _). Qed.

Lemma retval_WAITFORHANDLING (s : SerialReader) :
  _state s = WAITFORHANDLING → retval s = _currPlSz s.
Proof. intros Hs. unfold retval. by destruct (decide _). Qed.

(** Header phase: two header bytes and an accepted length byte. *)
Lemma poll_header (s : SerialReader) (len : byte) (q : list byte) :
  _state s = WAITFORPACKET →
  1 ≤ byteZ len ≤ maxPayloadSize →
  poll 3 s (INCOMING_HEADER_BYTE :: INCOMING_HEADER_BYTE :: len :: q) =
    Some ([Ret (-1); Ret (-1); Ret (-1)],
          mkSerialReader PAYLOAD len (byteZ len - 1) 0
            (wrap8 (HDR + HDR + byteZ len)) (payload s),
          q).
Proof.
  intros Hs Hlen.
  erewrite poll_cons by (by apply consume_WAITFORPACKET).
  rewrite Z.eqb_refl.
  erewrite poll_cons by (by apply consume_HEADER1).
  rewrite Z.eqb_refl.
  erewrite poll_cons by (by apply consume_HEADER2_accept).
  reflexivity.
Qed.

(** Payload phase: [k] bytes are already stored, the bytes [p] follow. *)
Lemma poll_payload (p : list byte) :
  ∀ (s : SerialReader) (k : nat) (q : list byte),
    _state s = PAYLOAD →
    _plCntr s = Z.of_nat k →
    Z.of_nat k < _currPlSz s →
    Z.of_nat (k + length p) ≤ _currPlSz s →
    Z.of_nat (k + length p) ≤ capacity s →
    0 ≤ _chksum s < 256 →
    ∃ s',
      poll (length p) s (p ++ q) = Some (replicate (length p) (Ret (-1)), s', q)
      ∧ _state s' =
          (if decide (Z.of_nat (k + length p) = _currPlSz s) then CHKSUM else PAYLOAD)
      ∧ _currPlSz s' = _currPlSz s
      ∧ _plCntr s' = Z.of_nat (k + length p)
      ∧ _chksum s' = wrap8 (_chksum s + sumZ p)
      ∧ payload s' = take k (payload s) ++ p ++ drop (k + length p) (payload s).
Proof.
  induction p as [|b p IH]; intros s k q Hs Hk Hlt Hle Hcap Hchk.
  - exists s. simpl. rewrite Nat.add_0_r in *.
    repeat split; try done.
    + destruct (decide _); [lia | done].
    + by rewrite Z.add_0_r, wrap8_small.
    + by rewrite take_drop.
  - simpl length in *.
    assert (Hstep := consume_PAYLOAD s b Hs ltac:(lia)).
    set (s1 := mkSerialReader _ _ _ _ _ _) in Hstep.
    assert (Hk1 : _plCntr s1 = Z.of_nat (S k)) by (simpl; lia).
    assert (Hins : payload s1 = <[k := b]> (payload s)).
    { simpl. by rewrite Hk, Nat2Z.id. }
    assert (Hlook : (<[k := b]> (payload s)) !! k = Some b).
    { apply list_lookup_insert_eq. unfold capacity in Hcap. lia. }
    destruct (decide (Z.of_nat (S k) = _currPlSz s)) as [Hend|Hmore].
    + (* the last payload byte *)
      assert (p = []) as -> by (destruct p; [done | simpl in *; lia]).
      exists s1. simpl app. simpl length.
      erewrite poll_cons by exact Hstep. simpl poll.
      assert (Hst : _state s1 = CHKSUM).
      { simpl. destruct (_plCntr s + 1 =? _currPlSz s) eqn:E; [done | lia]. }
      rewrite retval_other by (rewrite Hst; done).
      repeat split; try done.
      * rewrite Hst. destruct (decide _); [done | lia].
      * simpl. lia.
      * simpl. by rewrite Z.add_0_r.
      * rewrite Hins. simpl app.
        replace (k + 1)%nat with (S k) by lia.
        rewrite <- (take_drop (S k) (<[k:=b]> (payload s))) at 1.
        rewrite (take_S_r _ _ _ Hlook), take_insert_ge by lia.
        rewrite drop_insert_lt by lia.
        by rewrite <- app_assoc.
    + assert (Hst : _state s1 = PAYLOAD).
      { simpl. destruct (_plCntr s + 1 =? _currPlSz s) eqn:E; [lia | done]. }
      destruct (IH s1 (S k) q Hst Hk1) as (s' & Hp & Hs' & Hsz & Hcn & Hck & Hbuf).
      { simpl. lia. }
      { simpl. lia. }
      { rewrite (consume_capacity _ _ _ Hstep). lia. }
      { simpl. apply wrap8_range. }
      exists s'. simpl app.
      erewrite poll_cons by exact Hstep. rewrite Hp.
      rewrite retval_other by (rewrite Hst; done).
      replace (k + S (length p))%nat with (S k + length p)%nat by lia.
      repeat split; try done.
      * rewrite Hck. simpl _chksum. rewrite wrap8_add_l, sumZ_cons.
        f_equal. lia.
      * rewrite Hbuf, Hins.
        rewrite (take_S_r _ _ _ Hlook), take_insert_ge by lia.
        rewrite drop_insert_lt by lia.
        by rewrite <- app_assoc.
Qed.

(** Checksum phase. *)
Lemma poll_chksum (s : SerialReader) (chk : byte) (q : list byte) :
  _state s = CHKSUM →
  poll 1 s (chk :: q) =
    Some ([Ret (if _chksum s =? byteZ chk then _currPlSz s else -1)],
          set_state (if _chksum s =? byteZ chk then WAITFORHANDLING else WAITFORPACKET)
            (set_currByte chk s),
          q).
Proof.
  intros Hs. erewrite poll_cons by (by apply consume_CHKSUM). simpl.
  by destruct (_chksum s =? byteZ chk).
Qed.

(** Length byte and payload, starting after the two header bytes. *)
Lemma poll_length_payload (s : SerialReader) (len : byte) (p q : list byte) :
  _state s = HEADER2 →
  2 ≤ byteZ len ≤ maxPayloadSize →
  Z.of_nat (length p) = byteZ len - 1 →
  byteZ len - 1 ≤ capacity s →
  ∃ s1,
    poll (1 + length p) s (len :: p ++ q) =
      Some (replicate (1 + length p) (Ret (-1)), s1, q)
    ∧ _state s1 = CHKSUM
    ∧ _currPlSz s1 = byteZ len - 1
    ∧ _plCntr s1 = byteZ len - 1
    ∧ _chksum s1 = packet_sum len p
    ∧ payload s1 = p ++ drop (length p) (payload s).
Proof.
  intros Hs Hlen Hp Hcap.
  assert (Hacc := consume_HEADER2_accept s len Hs ltac:(lia)).
  set (s0 := mkSerialReader _ _ _ _ _ _) in Hacc.
  destruct (poll_payload p s0 0%nat q) as (s1 & Hpoll & Hst & Hsz & Hcn & Hck & Hbuf).
  { done. }
  { done. }
  { simpl. lia. }
  { simpl. lia. }
  { unfold capacity in *. simpl. lia. }
  { apply wrap8_range. }
  exists s1. change (1 + length p)%nat with (S (length p)).
  rewrite (poll_cons _ _ _ _ _ Hacc), Hpoll. simpl in *.
  repeat split; try done.
  - rewrite Hst. case_decide; [done | lia].
  - lia.
  - rewrite Hck. unfold packet_sum. apply wrap8_add_l.
Qed.

(** A whole frame up to, and excluding, its checksum byte. *)
Lemma poll_frame_body (s : SerialReader) (len : byte) (p q : list byte) :
  _state s = WAITFORPACKET →
  2 ≤ byteZ len ≤ maxPayloadSize →
  Z.of_nat (length p) = byteZ len - 1 →
  byteZ len - 1 ≤ capacity s →
  ∃ s1,
    poll (3 + length p) s
      (INCOMING_HEADER_BYTE :: INCOMING_HEADER_BYTE :: len :: p ++ q) =
      Some (replicate (3 + length p) (Ret (-1)), s1, q)
    ∧ _state s1 = CHKSUM
    ∧ _currPlSz s1 = byteZ len - 1
    ∧ _plCntr s1 = byteZ len - 1
    ∧ _chksum s1 = packet_sum len p
    ∧ payload s1 = p ++ drop (length p) (payload s).
Proof.
  intros Hs Hlen Hp Hcap.
  change (3 + length p)%nat with (S (S (1 + length p))).
  erewrite poll_cons by (by apply consume_WAITFORPACKET).
  rewrite Z.eqb_refl.
  erewrite poll_cons by (by apply consume_HEADER1).
  rewrite Z.eqb_refl.
  set (s2 := set_state HEADER2 _).
  destruct (poll_length_payload s2 len p q) as (s1 & -> & Hrest); try done.
  exists s1. split; [|exact Hrest].
  by rewrite !retval_other.
Qed.

(** A whole frame, checksum byte included. *)
Lemma poll_frame (s : SerialReader) (len chk : byte) (p q : list byte) :
  _state s = WAITFORPACKET →
  2 ≤ byteZ len ≤ maxPayloadSize →
  Z.of_nat (length p) = byteZ len - 1 →
  byteZ len - 1 ≤ capacity s →
  byteZ chk = packet_sum len p →
  poll (length (packet len p chk)) s (packet len p chk ++ q) =
    Some (replicate (3 + length p) (Ret (-1)) ++ [Ret (byteZ len - 1)],
          mkSerialReader WAITFORHANDLING chk (byteZ len - 1) (byteZ len - 1)
            (packet_sum len p) (p ++ drop (length p) (payload s)),
          q).
Proof.
  intros Hs Hlen Hp Hcap Hchk.
  destruct (poll_frame_body s len p (chk :: q)) as (s1 & Hpoll & Hst & Hsz & Hcn & Hck & Hbuf);
    try done.
  unfold packet. simpl length. rewrite length_app. simpl length.
  replace (S (S (S (length p + 1)))) with ((3 + length p) + 1)%nat by lia.
  rewrite poll_app.
  change ((INCOMING_HEADER_BYTE :: INCOMING_HEADER_BYTE :: len :: p ++ [chk]) ++ q)
    with (INCOMING_HEADER_BYTE :: INCOMING_HEADER_BYTE :: len :: (p ++ [chk]) ++ q).
  rewrite <- app_assoc. simpl app at 2. rewrite Hpoll.
  rewrite poll_chksum by done.
  rewrite Hck, Hchk, Z.eqb_refl, Hsz.
  unfold set_state, set_currByte. simpl.
  by rewrite Hsz, Hcn, Hck, Hbuf.
Qed.

(** *** Frames with a payload of 1 to [maxPayloadSize - 1] bytes decode *)

Lemma poll_frame_ready (s : SerialReader) (len chk : byte) (p q : list byte) :
  awaiting_sync s →
  2 ≤ byteZ len ≤ maxPayloadSize →
  Z.of_nat (length p) = byteZ len - 1 →
  byteZ chk = packet_sum len p →
  ∃ s',
    poll (length (packet len p chk)) s (packet len p chk ++ q) =
      Some (replicate (3 + length p) (Ret (-1)) ++ [Ret (byteZ len - 1)], s', q)
    ∧ _state s' = WAITFORHANDLING
    ∧ _currPlSz s' = byteZ len - 1
    ∧ take (length p) (payload s') = p.
Proof.
  intros [Hs Hcap] Hlen Hp Hchk.
  eexists. split; [apply poll_frame; (done || lia) |].
  simpl. split; [done|]. split; [done|]. apply take_app_length.
Qed.

(** C1 (amended): every frame with two header bytes, a length byte [len] with
    [2 <= len <= maxPayloadSize], [len - 1] payload bytes and the modulo-256
    sum of all of them as checksum byte, fed byte by byte to a decoder waiting
    for a header, makes every call but the last return -1, the last call
    return [len - 1], and leaves the decoder in WAITFORHANDLING with
    [_currPlSz = len - 1] and the payload in the first [len - 1] cells of
    [payload].  In particular, with header byte 0xAA and a buffer of at least
    3 bytes, the frame AA AA 03 10 20 87 yields the payload 10 20. *)
Theorem valid_frame_decodes :
  (∀ (s : SerialReader) (len chk : byte) (p q : list byte),
      awaiting_sync s →
      2 ≤ byteZ len ≤ maxPayloadSize →
      Z.of_nat (length p) = byteZ len - 1 →
      byteZ chk = packet_sum len p →
      ∃ s',
        poll (length (packet len p chk)) s (packet len p chk ++ q) =
          Some (replicate (3 + length p) (Ret (-1)) ++ [Ret (byteZ len - 1)], s', q)
        ∧ _state s' = WAITFORHANDLING
        ∧ _currPlSz s' = byteZ len - 1
        ∧ take (length p) (payload s') = p)
  ∧ (∀ (s : SerialReader) (q : list byte),
      INCOMING_HEADER_BYTE = xaa →
      3 ≤ maxPayloadSize →
      awaiting_sync s →
      ∃ s',
        poll 6 s ([xaa; xaa; x03; x10; x20; x87] ++ q) =
          Some ([Ret (-1); Ret (-1); Ret (-1); Ret (-1); Ret (-1); Ret 2], s', q)
        ∧ _state s' = WAITFORHANDLING
        ∧ _currPlSz s' = 2
        ∧ take 2 (payload s') = [x10; x20]).
Proof.
  split; [exact poll_frame_ready |].
  intros s q HH HM Hs.
  destruct (poll_frame_ready s x03 x87 [x10; x20] q Hs)
    as (s' & Hpoll & Hst & Hsz & Hbuf).
  - change (byteZ x03) with 3. lia.
  - reflexivity.
  - unfold packet_sum. rewrite HH. reflexivity.
  - exists s'. unfold packet in Hpoll. rewrite HH in Hpoll.
    change (byteZ x03 - 1) with 2 in *.
    split; [rewrite HH; exact Hpoll |].
    split; [done |]. split; [done |]. exact Hbuf.
Qed.

(** *** Stores and the contents of [payload] *)

Lemma consume_payload (s s' : SerialReader) (b : byte) :
  consume s b = Some s' →
  payload s' =
    apply_stores (match payload_store s b with Some w => [w] | None => [] end)
      (payload s).
Proof.
  intros Hc. unfold payload_store.
  pose proof (byteZ_range b) as Hb.
  destruct (_state s) eqn:Hs.
  - rewrite consume_WAITFORPACKET in Hc by done.
    injection Hc as <-. by destruct (byteZ b =? HDR).
  - rewrite consume_HEADER1 in Hc by done. by injection Hc as <-.
  - destruct (decide (1 ≤ byteZ b ≤ maxPayloadSize)).
    + rewrite consume_HEADER2_accept in Hc by done. by injection Hc as <-.
    + rewrite consume_HEADER2_reject in Hc by (done || lia). by injection Hc as <-.
  - destruct (decide (0 ≤ _plCntr s < capacity s)).
    + rewrite consume_PAYLOAD in Hc by done. by injection Hc as <-.
    + by rewrite consume_PAYLOAD_overrun in Hc.
  - rewrite consume_CHKSUM in Hc by done. by injection Hc as <-.
  - rewrite consume_WAITFORHANDLING in Hc by done. by injection Hc as <-.
Qed.

Lemma apply_stores_app (ws1 ws2 : list (Z * byte)) (buf : list byte) :
  apply_stores (ws1 ++ ws2) buf = apply_stores ws2 (apply_stores ws1 buf).
Proof. unfold apply_stores. apply foldl_app. Qed.

Lemma apply_stores_cons (i : Z) (v : byte) (ws : list (Z * byte)) (buf : list byte) :
  apply_stores ((i, v) :: ws) buf = apply_stores ws (<[Z.to_nat i := v]> buf).
Proof. reflexivity. Qed.

Lemma apply_stores_length (ws : list (Z * byte)) :
  ∀ buf, length (apply_stores ws buf) = length buf.
Proof.
  induction ws as [|[i v] ws IH]; intros buf; [done|].
  by rewrite apply_stores_cons, IH, length_insert.
Qed.

(** Two arrays of the same size that agree wherever [ws] does not store are
    equal after the stores [ws]. *)
Lemma apply_stores_ext (ws : list (Z * byte)) :
  ∀ buf1 buf2 : list byte,
    length buf1 = length buf2 →
    (∀ j : nat, j ∉ (Z.to_nat ∘ fst) <$> ws → buf1 !! j = buf2 !! j) →
    apply_stores ws buf1 = apply_stores ws buf2.
Proof.
  induction ws as [|[i v] ws IH]; intros buf1 buf2 Hlen Hagree.
  - simpl. apply list_eq. intros j. apply Hagree. apply not_elem_of_nil.
  - rewrite !apply_stores_cons. apply IH; [by rewrite !length_insert|].
    intros j Hj. destruct (decide (Z.to_nat i = j)) as [<-|Hne].
    + destruct (decide (Z.to_nat i < length buf1)%nat).
      * rewrite !list_lookup_insert_eq by lia. done.
      * rewrite !list_insert_ge by lia. rewrite !lookup_ge_None_2 by lia. done.
    + rewrite !list_lookup_insert_ne by done. apply Hagree.
      rewrite fmap_cons. simpl. rewrite not_elem_of_cons. done.
Qed.

Lemma apply_stores_unwritten (ws : list (Z * byte)) :
  ∀ (buf : list byte) (j : nat),
    j ∉ (Z.to_nat ∘ fst) <$> ws → apply_stores ws buf !! j = buf !! j.
Proof.
  induction ws as [|[i v] ws IH]; intros buf j Hj; [done|].
  rewrite fmap_cons, not_elem_of_cons in Hj. destruct Hj as [Hne Hj].
  rewrite apply_stores_cons, IH by done.
  simpl in Hne. by rewrite list_lookup_insert_ne.
Qed.

(** Performing the same stores a second time changes nothing. *)
Lemma apply_stores_twice (ws : list (Z * byte)) (buf : list byte) :
  apply_stores ws (apply_stores ws buf) = apply_stores ws buf.
Proof.
  apply apply_stores_ext.
  - apply apply_stores_length.
  - intros j Hj. by apply apply_stores_unwritten.
Qed.

Lemma stores_cons (s : SerialReader) (b : byte) (bs : list byte) :
  stores s (b :: bs) =
    match payload_store s b with Some w => [w] | None => [] end
    ++ match consume s b with
       | Some s' => stores s' bs
       | None => []
       end.
Proof. reflexivity. Qed.

Lemma poll_nil (n : nat) (s : SerialReader) :
  poll n s [] = Some (replicate n NoReturn, s, []).
Proof. induction n as [|n IH]; [done|]. simpl. by rewrite IH. Qed.

(** The array after [n] calls is the array before them with the stores of the
    consumed bytes applied. *)
Lemma poll_payload_stores (n : nat) :
  ∀ (s s' : SerialReader) (q q' : list byte) (rs : list Returned),
    poll n s q = Some (rs, s', q') →
    payload s' = apply_stores (stores s (take n q)) (payload s).
Proof.
  induction n as [|n IH]; intros s s' q q' rs Hp.
  - simpl in Hp. by injection Hp as _ <- _.
  - destruct q as [|b q].
    + rewrite poll_nil in Hp. by injection Hp as _ <- _.
    + destruct (consume s b) as [s1|] eqn:Hc.
      * rewrite (poll_cons _ _ _ _ _ Hc) in Hp.
        destruct (poll n s1 q) as [[[rs1 s2] q2]|] eqn:Hp1; [|done].
        injection Hp as _ <- _.
        rewrite (IH _ _ _ _ _ Hp1). simpl take.
        rewrite stores_cons, Hc.
        by rewrite apply_stores_app, <- (consume_payload s s1 b).
      * by rewrite (poll_cons_overrun _ _ _ _ Hc) in Hp.
Qed.

Lemma poll_capacity (n : nat) :
  ∀ (s s' : SerialReader) (q q' : list byte) (rs : list Returned),
    poll n s q = Some (rs, s', q') → capacity s' = capacity s.
Proof.
  intros s s' q q' rs Hp. unfold capacity.
  by rewrite (poll_payload_stores _ _ _ _ _ _ Hp), apply_stores_length.
Qed.

(** *** Decoders in the same control state behave alike *)

Lemma control_eq_consume (a b : SerialReader) (x : byte) :
  control_eq a b →
  match consume a x, consume b x with
  | Some a', Some b' => control_eq a' b' ∧ retval a' = retval b'
  | None, None => True
  | _, _ => False
  end.
Proof.
  intros (Hst & Hcap & Hfld).
  pose proof (byteZ_range x) as Hx.
  destruct (_state a) eqn:Ha; symmetry in Hst.
  - rewrite !consume_WAITFORPACKET by done.
    destruct (byteZ x =? HDR); unfold control_eq, retval; simpl;
      rewrite ?Ha, ?Hst; by repeat case_decide.
  - rewrite !consume_HEADER1 by done.
    destruct (byteZ x =? HDR); unfold control_eq, retval; simpl;
      by repeat case_decide.
  - destruct (decide (1 ≤ byteZ x ≤ maxPayloadSize)).
    + rewrite !consume_HEADER2_accept by done.
      unfold control_eq, retval; simpl. by repeat case_decide.
    + rewrite !consume_HEADER2_reject by (done || lia).
      unfold control_eq, retval; simpl. by repeat case_decide.
  - destruct Hfld as (Hsz & Hcn & Hck).
    destruct (decide (0 ≤ _plCntr a < capacity a)).
    + rewrite !consume_PAYLOAD by (done || lia).
      rewrite <- Hsz, <- Hcn, <- Hck.
      unfold control_eq, retval, capacity in *; simpl.
      rewrite !length_insert.
      destruct (_plCntr a + 1 =? _currPlSz a); by repeat case_decide.
    + rewrite !consume_PAYLOAD_overrun by (done || lia). done.
  - destruct Hfld as (Hsz & Hcn & Hck).
    rewrite !consume_CHKSUM by done. rewrite <- Hck.
    destruct (_chksum a =? byteZ x); unfold control_eq, retval; simpl;
      by repeat case_decide.
  - destruct Hfld as (Hsz & Hcn & Hck).
    rewrite !consume_WAITFORHANDLING by done.
    unfold control_eq, retval; simpl. rewrite Ha, Hst.
    by repeat case_decide.
Qed.

Lemma control_eq_poll (n : nat) :
  ∀ (a b a' : SerialReader) (q q' : list byte) (rs : list Returned),
    control_eq a b →
    poll n a q = Some (rs, a', q') →
    ∃ b', poll n b q = Some (rs, b', q') ∧ control_eq a' b'.
Proof.
  induction n as [|n IH]; intros a b a' q q' rs Hab Hp.
  - simpl in Hp. injection Hp as <- <- <-. by exists b.
  - destruct q as [|x q].
    + rewrite poll_nil in *. injection Hp as <- <- <-. by exists b.
    + pose proof (control_eq_consume a b x Hab) as Hstep.
      destruct (consume a x) as [a1|] eqn:Hca;
        [| by rewrite (poll_cons_overrun _ _ _ _ Hca) in Hp].
      destruct (consume b x) as [b1|] eqn:Hcb; [|done].
      destruct Hstep as [Hab1 Hret].
      rewrite (poll_cons _ _ _ _ _ Hca) in Hp.
      rewrite (poll_cons _ _ _ _ _ Hcb).
      destruct (poll n a1 q) as [[[rs1 a2] q2]|] eqn:Hp1; [|done].
      injection Hp as <- <- <-.
      destruct (IH _ _ _ _ _ _ Hab1 Hp1) as (b2 & Hp2 & Hab2).
      exists b2. by rewrite Hp2, Hret.
Qed.

Lemma control_eq_stores (bs : list byte) :
  ∀ a b : SerialReader, control_eq a b → stores a bs = stores b bs.
Proof.
  induction bs as [|x bs IH]; intros a b Hab; [done|].
  rewrite !stores_cons.
  pose proof (control_eq_consume a b x Hab) as Hstep.
  assert (payload_store a x = payload_store b x) as ->.
  { destruct Hab as (Hst & _ & Hfld). unfold payload_store.
    rewrite <- Hst. destruct (_state a); try done.
    by destruct Hfld as (_ & -> & _). }
  destruct (consume a x) as [a1|], (consume b x) as [b1|]; try done.
  f_equal. apply IH. by destruct Hstep.
Qed.

(** *** The two frames that are not decoded *)

(** Whatever [maxPayloadSize] is, the frame AA AA 03 10 20 F9 is dropped: its
    last byte is not the modulo-256 sum of the others. *)
Lemma spec_frame_dropped (s s' : SerialReader) (rs : list Returned)
    (q' : list byte) :
  INCOMING_HEADER_BYTE = xaa →
  _state s = WAITFORPACKET →
  poll 6 s spec_frame = Some (rs, s', q') →
  _state s' = WAITFORPACKET ∧ rs = replicate 6 (Ret (-1)).
Proof.
  intros HH Hs Hp. unfold spec_frame in Hp.
  assert (Hx : byteZ xaa = HDR) by (by rewrite HH).
  erewrite poll_cons in Hp by (by apply consume_WAITFORPACKET).
  rewrite Hx, Z.eqb_refl in Hp.
  erewrite poll_cons in Hp by (by apply consume_HEADER1).
  rewrite Hx, Z.eqb_refl in Hp.
  destruct (decide (3 ≤ maxPayloadSize)) as [HM|HM].
  - erewrite poll_cons in Hp by (apply consume_HEADER2_accept; [done|]; change (byteZ x03) with 3; lia).
    set (s0 := mkSerialReader PAYLOAD _ _ _ _ _) in Hp.
    destruct (decide (0 ≤ _plCntr s0 < capacity s0)) as [Hin|Hout];
      [| by rewrite (poll_cons_overrun _ _ _ _ (consume_PAYLOAD_overrun s0 x10 eq_refl Hout)) in Hp].
    rewrite (poll_cons _ _ _ _ _ (consume_PAYLOAD s0 x10 eq_refl Hin)) in Hp.
    set (s1 := mkSerialReader _ x10 _ _ _ _) in Hp.
    destruct (decide (0 ≤ _plCntr s1 < capacity s1)) as [Hin1|Hout1];
      [| by rewrite (poll_cons_overrun _ _ _ _ (consume_PAYLOAD_overrun s1 x20 eq_refl Hout1)) in Hp].
    rewrite (poll_cons _ _ _ _ _ (consume_PAYLOAD s1 x20 eq_refl Hin1)) in Hp.
    set (s2 := mkSerialReader _ x20 _ _ _ _) in Hp.
    rewrite (poll_cons _ _ _ _ _ (consume_CHKSUM s2 xf9 eq_refl)) in Hp.
    assert (Hsum : _chksum s2 = 135).
    { simpl. rewrite <- Hx. reflexivity. }
    rewrite Hsum in Hp. simpl in Hp.
    by injection Hp as <- <- <-.
  - erewrite poll_cons in Hp
      by (apply consume_HEADER2_reject; [done|]; change (byteZ x03) with 3; lia).
    erewrite poll_cons in Hp by (by apply consume_WAITFORPACKET).
    replace (byteZ x10 =? HDR) with false in Hp by (by rewrite <- Hx).
    erewrite poll_cons in Hp by (by apply consume_WAITFORPACKET).
    replace (byteZ x20 =? HDR) with false in Hp by (by rewrite <- Hx).
    erewrite poll_cons in Hp by (by apply consume_WAITFORPACKET).
    replace (byteZ xf9 =? HDR) with false in Hp by (by rewrite <- Hx).
    simpl in Hp. by injection Hp as <- <- <-.
Qed.

(** A decoder that accumulates with expected length 0 stores every byte it is
    given and stays in PAYLOAD. *)
Lemma poll_payload_unbounded (bs : list byte) :
  ∀ (s : SerialReader) (q : list byte),
    _state s = PAYLOAD →
    _currPlSz s = 0 →
    0 ≤ _plCntr s →
    _plCntr s + Z.of_nat (length bs) ≤ capacity s →
    ∃ s',
      poll (length bs) s (bs ++ q) = Some (replicate (length bs) (Ret (-1)), s', q)
      ∧ _state s' = PAYLOAD
      ∧ _currPlSz s' = 0
      ∧ _plCntr s' = _plCntr s + Z.of_nat (length bs)
      ∧ capacity s' = capacity s.
Proof.
  induction bs as [|b bs IH]; intros s q Hs Hsz Hcn Hcap.
  - exists s. simpl. repeat split; try done. lia.
  - simpl length in *.
    assert (Hstep := consume_PAYLOAD s b Hs ltac:(lia)).
    set (s1 := mkSerialReader _ _ _ _ _ _) in Hstep.
    assert (Hst : _state s1 = PAYLOAD).
    { simpl. destruct (_plCntr s + 1 =? _currPlSz s) eqn:E; [lia | done]. }
    assert (Hc1 := consume_capacity _ _ _ Hstep).
    destruct (IH s1 q Hst) as (s' & Hp & Hs' & Hsz' & Hcn' & Hcap');
      try (simpl; lia).
    exists s'. simpl app.
    rewrite (poll_cons _ _ _ _ _ Hstep), Hp, retval_other by (by rewrite Hst).
    repeat split; try done.
    + rewrite Hcn'. simpl. lia.
    + congruence.
Qed.

(** After a length byte of 1 no checksum is ever awaited: the bytes that
    follow are all stored, and the one after the buffer is full is stored past
    its end. *)
Lemma length_one_overruns (s : SerialReader) (len : byte) (bs q : list byte)
    (x : byte) :
  awaiting_sync s →
  byteZ len = 1 →
  1 ≤ maxPayloadSize →
  Z.of_nat (length bs) = maxPayloadSize →
  poll (3 + length bs + 1) s
    (INCOMING_HEADER_BYTE :: INCOMING_HEADER_BYTE :: len :: bs ++ x :: q) = None.
Proof.
  intros [Hs Hcap] Hlen HM Hbs.
  rewrite <- Nat.add_assoc, poll_app, poll_header by (done || lia).
  set (s0 := mkSerialReader _ _ _ _ _ _).
  destruct (poll_payload_unbounded bs s0 (x :: q)) as (s' & Hp & Hs' & Hsz & Hcn & Hcap');
    try done; try (simpl; lia).
  { unfold capacity in *. simpl. lia. }
  rewrite poll_app, Hp.
  rewrite poll_cons_overrun; [done|].
  apply consume_PAYLOAD_overrun; [done|].
  rewrite Hcn, Hcap'. unfold capacity in *. simpl. lia.
Qed.

(** *** Reachable states *)

Lemma readUpdate_reachable (s s' : SerialReader) (q q' : list byte) (r : Returned) :
  reachable s → readUpdate s q = Some (r, s', q') → reachable s'.
Proof.
  intros Hr. destruct q as [|b q].
  - simpl. intros [= <- <- <-]. exact Hr.
  - rewrite readUpdate_available.
    destruct (consume s b) as [s1|] eqn:Hc; [|done].
    intros [= <- <- <-]. by apply (reach_consume _ _ s b).
Qed.

Lemma poll_reachable (n : nat) :
  ∀ (s s' : SerialReader) (q q' : list byte) (rs : list Returned),
    reachable s → poll n s q = Some (rs, s', q') → reachable s'.
Proof.
  induction n as [|n IH]; intros s s' q q' rs Hr; simpl.
  - by intros [= <- <- <-].
  - destruct (readUpdate s q) as [[[r s1] q1]|] eqn:Hru; [|done].
    destruct (poll n s1 q1) as [[[rs1 s2] q2]|] eqn:Hp; [|done].
    intros [= <- <- <-].
    eapply IH; [|exact Hp]. by eapply readUpdate_reachable.
Qed.

Lemma decoder_inv_consume (s s' : SerialReader) (b : byte) :
  decoder_inv maxPayloadSize s → consume s b = Some s' →
  decoder_inv maxPayloadSize s'.
Proof.
  intros [Hcap Hinv] Hc.
  split; [by rewrite (consume_capacity _ _ _ Hc) |].
  pose proof (byteZ_range b) as Hb.
  destruct (_state s) eqn:Hs.
  - rewrite consume_WAITFORPACKET in Hc by done.
    injection Hc as <-. by destruct (byteZ b =? HDR); simpl; rewrite ?Hs.
  - rewrite consume_HEADER1 in Hc by done.
    injection Hc as <-. by destruct (byteZ b =? HDR).
  - destruct (decide (1 ≤ byteZ b ≤ maxPayloadSize)) as [Hin|Hout].
    + rewrite consume_HEADER2_accept in Hc by done.
      injection Hc as <-. simpl. lia.
    + rewrite consume_HEADER2_reject in Hc by (done || lia).
      by injection Hc as <-.
  - destruct (decide (0 ≤ _plCntr s < capacity s)) as [Hin|Hout].
    + rewrite consume_PAYLOAD in Hc by done.
      injection Hc as <-. simpl.
      destruct (_plCntr s + 1 =? _currPlSz s) eqn:E; lia.
    + by rewrite consume_PAYLOAD_overrun in Hc.
  - rewrite consume_CHKSUM in Hc by done.
    injection Hc as <-. by destruct (_chksum s =? byteZ b).
  - rewrite consume_WAITFORHANDLING in Hc by done.
    injection Hc as <-. simpl. by rewrite Hs.
Qed.

Lemma reachable_inv (s : SerialReader) :
  reachable s → decoder_inv maxPayloadSize s.
Proof.
  induction 1 as [mem Hcap | s b s' _ IH Hc | s _ IH].
  - by split.
  - by eapply decoder_inv_consume.
  - destruct IH as [Hcap _]. by split.
Qed.

(** C2 (amended): in every state reachable from the constructed decoder by
    consumed bytes and acknowledgments in which a payload of at least one
    byte is being accumulated, awaits its checksum or awaits the handler,
    the fill counter [_plCntr] is between 0 and the expected length
    [_currPlSz], which is at most [maxPayloadSize]; the store that the next
    byte performs in such a state is below [_currPlSz] and inside [payload]. *)
Theorem fill_count_bounded (s : SerialReader) :
  reachable s →
  _state s = PAYLOAD ∨ _state s = CHKSUM ∨ _state s = WAITFORHANDLING →
  1 ≤ _currPlSz s →
  0 ≤ _plCntr s ≤ _currPlSz s
  ∧ _currPlSz s ≤ maxPayloadSize
  ∧ ∀ b i v, payload_store s b = Some (i, v) → i < _currPlSz s ∧ 0 ≤ i < capacity s.
Proof.
  intros Hr Hst Hsz. destruct (reachable_inv s Hr) as [Hcap Hinv].
  unfold payload_store.
  destruct Hst as [Hst | [Hst | Hst]]; rewrite Hst in *.
  - split; [lia|]. split; [lia|]. intros b i v [= <- _]. lia.
  - split; [lia|]. split; [lia|]. intros b i v [=].
  - split; [lia|]. split; [lia|]. intros b i v [=].
Qed.

(** C3 (amended): at the length byte, the value 0 is rejected and the decoder
    waits for a header again; so is every value above [maxPayloadSize], in
    particular [maxPayloadSize + 1] and [maxPayloadSize + 2]; the value
    [maxPayloadSize] (when it is at least 2) is the largest one accepted and
    the [maxPayloadSize - 1] payload bytes that follow it are accumulated in
    [payload], after which the decoder awaits the checksum byte. *)
Theorem length_byte_bounds (s : SerialReader) (b : byte) :
  _state s = HEADER2 →
  (byteZ b = 0 →
     consume s b = Some (set_state WAITFORPACKET (set_currByte b s)))
  ∧ (maxPayloadSize < byteZ b →
     consume s b = Some (set_state WAITFORPACKET (set_currByte b s)))
  ∧ (byteZ b = maxPayloadSize → 2 ≤ maxPayloadSize →
     capacity s = maxPayloadSize →
     ∀ p q : list byte,
       Z.of_nat (length p) = maxPayloadSize - 1 →
       ∃ s',
         poll (1 + length p) s (b :: p ++ q) =
           Some (replicate (1 + length p) (Ret (-1)), s', q)
         ∧ _state s' = CHKSUM
         ∧ _currPlSz s' = maxPayloadSize - 1
         ∧ _plCntr s' = maxPayloadSize - 1
         ∧ take (length p) (payload s') = p).
Proof.
  intros Hs. split; [|split].
  - intros Hb. apply consume_HEADER2_reject; auto.
  - intros Hb. apply consume_HEADER2_reject; auto.
  - intros Hb HM Hcap p q Hp.
    destruct (poll_length_payload s b p q) as (s' & Hpoll & Hst & Hsz & Hcn & _ & Hbuf);
      try lia; [done|].
    exists s'. rewrite Hb in *.
    repeat split; try done.
    rewrite Hbuf. apply take_app_length.
Qed.

(** C4: each of the three framing errors sends the decoder back to
    WAITFORPACKET, whatever was accumulated, and the call returns -1, the
    value every call returns that consumed a byte without completing a frame;
    from then on the decoder returns what a decoder waiting for its first
    header returns on the same input. *)
Theorem framing_error_resyncs (s : SerialReader) (b : byte) (q : list byte) :
  framing_error s b →
  readUpdate s (b :: q) =
    Some (Ret (-1), set_state WAITFORPACKET (set_currByte b s), q)
  ∧ (∀ (s0 s0' : SerialReader) (b0 : byte) (q0 q0' : list byte) (r : Returned),
       readUpdate s0 (b0 :: q0) = Some (r, s0', q0') →
       _state s0' ≠ WAITFORHANDLING → r = Ret (-1))
  ∧ (∀ (fresh : SerialReader) (n : nat) (q1 : list byte),
       _state fresh = WAITFORPACKET → capacity fresh = capacity s →
       (fst ∘ fst) <$> poll n (set_state WAITFORPACKET (set_currByte b s)) q1
       = (fst ∘ fst) <$> poll n fresh q1).
Proof.
  intros Herr. split; [|split].
  - rewrite readUpdate_available.
    destruct Herr as [[Hs Hb] | [[Hs Hb] | [Hs Hb]]].
    + rewrite consume_HEADER1 by done.
      destruct (byteZ b =? HDR) eqn:E; [lia | done].
    + by rewrite consume_HEADER2_reject.
    + rewrite consume_CHKSUM by done.
      destruct (_chksum s =? byteZ b) eqn:E; [lia | done].
  - intros s0 s0' b0 q0 q0' r Hru Hst. rewrite readUpdate_available in Hru.
    destruct (consume s0 b0) as [s1|]; [|done].
    injection Hru as <- <- <-. by rewrite retval_other.
  - intros fresh n q1 Hfr Hcap.
    set (a := set_state WAITFORPACKET (set_currByte b s)).
    assert (Hab : control_eq a fresh) by (by split; [|split]).
    assert (Hba : control_eq fresh a) by (by split; [|split; [|rewrite Hfr]]).
    destruct (poll n a q1) as [[[rs a'] q']|] eqn:Hpa.
    + destruct (control_eq_poll _ _ _ _ _ _ _ Hab Hpa) as (b' & -> & _). done.
    + destruct (poll n fresh q1) as [[[rs b'] q']|] eqn:Hpb; [|done].
      destruct (control_eq_poll _ _ _ _ _ _ _ Hba Hpb) as (a' & Hpa' & _).
      congruence.
Qed.

(** *** One call of [readUpdate] *)

(** A call that finds a byte consumes exactly that one, performs one
    transition, and returns [_currPlSz] when the new state is WAITFORHANDLING
    and -1 otherwise. *)
Lemma readUpdate_one_step (s s' : SerialReader) (b : byte) (q q' : list byte)
    (r : Returned) :
  readUpdate s (b :: q) = Some (r, s', q') →
  q' = q
  ∧ consume s b = Some s'
  ∧ r = Ret (if decide (_state s' = WAITFORHANDLING) then _currPlSz s' else -1).
Proof.
  rewrite readUpdate_available.
  destruct (consume s b) as [s1|]; [|done].
  by intros [= <- <- <-].
Qed.

(** C5: with an empty serial queue the [while] loop of [readUpdate] is not
    entered, the decoder is left as it was, and control reaches the end of
    the function without a [return]: the call yields no value, hence not the
    value -1. *)
Theorem readUpdate_empty_queue (s : SerialReader) :
  readUpdate s [] = Some (NoReturn, s, [])
  ∧ readUpdate s [] ≠ Some (Ret (-1), s, []).
Proof. split; [reflexivity | discriminate]. Qed.

(** C6 (amended): in WAITFORHANDLING every call that finds a byte in the
    serial queue reads it, drops it and returns the payload length; over any
    number of calls the state, the expected length, the fill counter, the
    checksum and the contents of [payload] stay as they are. *)
Theorem ready_decoder_holds_payload (n : nat) :
  ∀ (s : SerialReader) (q : list byte),
    _state s = WAITFORHANDLING →
    ∃ s',
      poll n s q =
        Some (replicate (n `min` length q) (Ret (_currPlSz s))
                ++ replicate (n - length q) NoReturn,
              s', drop n q)
      ∧ _state s' = WAITFORHANDLING
      ∧ _currPlSz s' = _currPlSz s
      ∧ _plCntr s' = _plCntr s
      ∧ _chksum s' = _chksum s
      ∧ payload s' = payload s.
Proof.
  induction n as [|n IH]; intros s q Hs.
  - exists s. by rewrite drop_0.
  - destruct q as [|b q].
    + exists s. rewrite poll_nil. simpl length.
      by rewrite Nat.min_0_r, Nat.sub_0_r.
    + destruct (IH (set_currByte b s) q Hs) as (s' & Hp & Hst & Hsz & Hcn & Hck & Hbuf).
      exists s'.
      rewrite (poll_cons _ _ _ _ _ (consume_WAITFORHANDLING s b Hs)), Hp.
      rewrite retval_WAITFORHANDLING by done.
      by repeat split.
Qed.

(** *** The running checksum *)

(** C7: the running checksum is kept modulo 256.  An accepted length byte
    seeds it with header + header + length; each payload byte is added to it;
    at the checksum byte the frame is accepted exactly when that byte equals
    it; so a frame is accepted exactly when its last byte is the modulo-256
    sum of the two header bytes, the length byte and the payload bytes. *)
Theorem checksum_mod_256 :
  (∀ (s s' : SerialReader) (b : byte),
      _state s = HEADER2 → consume s b = Some s' → _state s' = PAYLOAD →
      _chksum s' = (HDR + HDR + byteZ b) mod 256)
  ∧ (∀ (s s' : SerialReader) (b : byte),
      _state s = PAYLOAD → consume s b = Some s' →
      _chksum s' = (_chksum s + byteZ b) mod 256)
  ∧ (∀ (s : SerialReader) (b : byte),
      _state s = CHKSUM →
      ∃ s', consume s b = Some s'
            ∧ (_state s' = WAITFORHANDLING ∨ _state s' = WAITFORPACKET)
            ∧ (_state s' = WAITFORHANDLING ↔ byteZ b = _chksum s))
  ∧ (∀ (s : SerialReader) (len chk : byte) (p : list byte),
      awaiting_sync s →
      2 ≤ byteZ len ≤ maxPayloadSize →
      Z.of_nat (length p) = byteZ len - 1 →
      ∃ rs s',
        poll (length (packet len p chk)) s (packet len p chk) = Some (rs, s', [])
        ∧ (_state s' = WAITFORHANDLING ∨ _state s' = WAITFORPACKET)
        ∧ (_state s' = WAITFORHANDLING ↔
           byteZ chk = (HDR + HDR + byteZ len + sumZ p) mod 256)).
Proof.
  split; [|split; [|split]].
  - intros s s' b Hs Hc Hs'. pose proof (byteZ_range b).
    destruct (decide (1 ≤ byteZ b ≤ maxPayloadSize)).
    + rewrite consume_HEADER2_accept in Hc by done. by injection Hc as <-.
    + rewrite consume_HEADER2_reject in Hc by (done || lia).
      injection Hc as <-. done.
  - intros s s' b Hs Hc.
    destruct (decide (0 ≤ _plCntr s < capacity s)).
    + rewrite consume_PAYLOAD in Hc by done. by injection Hc as <-.
    + by rewrite consume_PAYLOAD_overrun in Hc.
  - intros s b Hs. eexists. split; [by apply consume_CHKSUM|].
    simpl. destruct (_chksum s =? byteZ b) eqn:E.
    + split; [by left|]. split; [lia | done].
    + split; [by right|]. split; [done | lia].
  - intros s len chk p [Hs Hcap] Hlen Hp.
    destruct (poll_frame_body s len p [chk]) as (s1 & Hpoll & Hst & Hsz & Hcn & Hck & Hbuf);
      try (done || lia).
    eexists _, _. split.
    + unfold packet. simpl length. rewrite length_app. simpl length.
      replace (S (S (S (length p + 1)))) with ((3 + length p) + 1)%nat by lia.
      rewrite poll_app. simpl app. rewrite Hpoll.
      rewrite poll_chksum by done. reflexivity.
    + simpl. rewrite Hck. unfold packet_sum, wrap8.
      destruct (_ =? byteZ chk) eqn:E.
      * split; [by left|]. split; [lia | done].
      * split; [by right|]. split; [done | lia].
Qed.

(** *** Acknowledging a payload *)

(** C8: in every state [payloadHandled] sets the expected length to -1 and
    the state to WAITFORPACKET, and changes nothing else. *)
Theorem payloadHandled_resets (s : SerialReader) :
  _currPlSz (payloadHandled s) = -1
  ∧ _state (payloadHandled s) = WAITFORPACKET
  ∧ _currByte (payloadHandled s) = _currByte s
  ∧ _plCntr (payloadHandled s) = _plCntr s
  ∧ _chksum (payloadHandled s) = _chksum s
  ∧ payload (payloadHandled s) = payload s.
Proof. by repeat split. Qed.

(** *** Sending the same frame again *)

Lemma poll_last (n : nat) :
  ∀ (s s' : SerialReader) (q q' : list byte) (rs : list Returned),
    (n < length q)%nat →
    poll (S n) s q = Some (rs, s', q') →
    last rs = Some (Ret (retval s')).
Proof.
  induction n as [|n IH]; intros s s' q q' rs Hn Hp;
    destruct q as [|b q]; simpl in Hn; try lia.
  - destruct (consume s b) as [s1|] eqn:Hc;
      [| by rewrite (poll_cons_overrun _ _ _ _ Hc) in Hp].
    rewrite (poll_cons _ _ _ _ _ Hc) in Hp. simpl in Hp.
    by injection Hp as <- <- <-.
  - destruct (consume s b) as [s1|] eqn:Hc;
      [| by rewrite (poll_cons_overrun _ _ _ _ Hc) in Hp].
    rewrite (poll_cons _ _ _ _ _ Hc) in Hp.
    destruct (poll (S n) s1 q) as [[[rs1 s2] q2]|] eqn:Hp1; [|done].
    injection Hp as <- <- <-.
    assert (Hl := IH s1 s2 q q2 rs1 ltac:(lia) Hp1).
    destruct rs1 as [|r rs1]; [done|]. exact Hl.
Qed.

(** Decoding the same bytes once more after [payloadHandled]. *)
Lemma poll_again_after_handled (s s1 : SerialReader) (P : list byte)
    (rs : list Returned) :
  _state s = WAITFORPACKET →
  poll (length P) s P = Some (rs, s1, []) →
  _state s1 = WAITFORHANDLING →
  ∃ s2,
    poll (length P) (payloadHandled s1) P = Some (rs, s2, [])
    ∧ _state s2 = WAITFORHANDLING
    ∧ last rs = Some (Ret (_currPlSz s1))
    ∧ _currPlSz s2 = _currPlSz s1
    ∧ payload s2 = payload s1.
Proof.
  intros Hs Hp Hs1.
  assert (Hctl : control_eq s (payloadHandled s1)).
  { split; [by rewrite Hs|]. split; [|by rewrite Hs].
    symmetry. apply (poll_capacity _ _ _ _ _ _ Hp). }
  destruct (control_eq_poll _ _ _ _ _ _ _ Hctl Hp) as (s2 & Hp2 & Hst & _ & Hfld).
  rewrite Hs1 in Hfld. destruct Hfld as (Hsz & _ & _).
  exists s2. split; [done|]. split; [congruence|]. split; [|split; [done|]].
  - destruct P as [|b P]; [simpl in Hp; congruence|].
    rewrite (poll_last (length P) s s1 (b :: P) [] rs ltac:(simpl; lia) Hp).
    by rewrite retval_WAITFORHANDLING.
  - rewrite (poll_payload_stores _ _ _ _ _ _ Hp2).
    rewrite <- (control_eq_stores _ _ _ Hctl).
    change (payload (payloadHandled s1)) with (payload s1).
    rewrite (poll_payload_stores _ _ _ _ _ _ Hp).
    apply apply_stores_twice.
Qed.

(** For a frame with a payload of 1 to [maxPayloadSize - 1] bytes both
    decodings take place. *)
Lemma resend_valid_frame (s : SerialReader) (len chk : byte) (p : list byte) :
  awaiting_sync s →
  2 ≤ byteZ len ≤ maxPayloadSize →
  Z.of_nat (length p) = byteZ len - 1 →
  byteZ chk = packet_sum len p →
  ∃ rs s1 s2,
    poll (length (packet len p chk)) s (packet len p chk) = Some (rs, s1, [])
    ∧ poll (length (packet len p chk)) (payloadHandled s1) (packet len p chk)
      = Some (rs, s2, [])
    ∧ _state s1 = WAITFORHANDLING ∧ _state s2 = WAITFORHANDLING
    ∧ last rs = Some (Ret (byteZ len - 1))
    ∧ _currPlSz s2 = _currPlSz s1
    ∧ payload s2 = payload s1.
Proof.
  intros [Hs Hcap] Hlen Hp Hchk.
  pose proof (poll_frame s len chk p [] Hs Hlen Hp ltac:(lia) Hchk) as Hpoll.
  rewrite app_nil_r in Hpoll.
  destruct (poll_again_after_handled _ _ _ _ Hs Hpoll eq_refl)
    as (s2 & Hp2 & Hs2 & Hl & Hsz & Hbuf).
  eexists _, _, s2.
  split; [exact Hpoll|]. split; [exact Hp2|]. split; [reflexivity|].
  split; [exact Hs2|]. split; [exact Hl|]. split; [exact Hsz | exact Hbuf].
Qed.

(** C9: if the bytes [P], fed to a decoder waiting for a header, leave it in
    WAITFORHANDLING, then after [payloadHandled] the same bytes leave it in
    WAITFORHANDLING again, every call returns what it returned the first
    time, the last one the same payload length, and [payload] holds the same
    bytes as the first time.  For every frame with a length byte [len],
    [2 <= len <= maxPayloadSize], [len - 1] payload bytes and their
    modulo-256 sum as checksum byte, the first decoding does end in
    WAITFORHANDLING, and so does the second, with the same results. *)
Theorem resend_after_handled :
  (∀ (s s1 : SerialReader) (P : list byte) (rs : list Returned),
      _state s = WAITFORPACKET →
      poll (length P) s P = Some (rs, s1, []) →
      _state s1 = WAITFORHANDLING →
      ∃ s2,
        poll (length P) (payloadHandled s1) P = Some (rs, s2, [])
        ∧ _state s2 = WAITFORHANDLING
        ∧ last rs = Some (Ret (_currPlSz s1))
        ∧ _currPlSz s2 = _currPlSz s1
        ∧ payload s2 = payload s1)
  ∧ (∀ (s : SerialReader) (len chk : byte) (p : list byte),
      awaiting_sync s →
      2 ≤ byteZ len ≤ maxPayloadSize →
      Z.of_nat (length p) = byteZ len - 1 →
      byteZ chk = packet_sum len p →
      ∃ rs s1 s2,
        poll (length (packet len p chk)) s (packet len p chk) = Some (rs, s1, [])
        ∧ poll (length (packet len p chk)) (payloadHandled s1) (packet len p chk)
          = Some (rs, s2, [])
        ∧ _state s1 = WAITFORHANDLING ∧ _state s2 = WAITFORHANDLING
        ∧ last rs = Some (Ret (byteZ len - 1))
        ∧ _currPlSz s2 = _currPlSz s1
        ∧ payload s2 = payload s1).
Proof.
  split.
  - apply poll_again_after_handled.
  - apply resend_valid_frame.
Qed.

(** *** Stores during accumulation *)

Lemma stores_payload (p : list byte) :
  ∀ (s : SerialReader) (k : Z),
    _state s = PAYLOAD →
    _plCntr s = k →
    0 ≤ k →
    k + Z.of_nat (length p) ≤ _currPlSz s →
    Forall (λ w, k ≤ w.1 < _currPlSz s) (stores s p)
    ∧ (k + Z.of_nat (length p) ≤ capacity s →
       stores s p = zip (seqZ k (Z.of_nat (length p))) p).
Proof.
  induction p as [|b p IH]; intros s k Hs Hk Hk0 Hle; [done|].
  simpl length in *. rewrite stores_cons. unfold payload_store. rewrite Hs.
  destruct (decide (0 ≤ _plCntr s < capacity s)) as [Hin|Hout].
  - assert (Hstep := consume_PAYLOAD s b Hs Hin). rewrite Hstep.
    set (s1 := mkSerialReader _ _ _ _ _ _) in *.
    rewrite seqZ_cons by lia. simpl zip.
    replace (Z.pred (Z.of_nat (S (length p)))) with (Z.of_nat (length p)) by lia.
    destruct (decide (k + 1 = _currPlSz s)) as [Hend|Hmore].
    + assert (p = []) as -> by (destruct p; [done | simpl in *; lia]).
      simpl. split; [|by rewrite Hk].
      apply Forall_singleton. simpl. lia.
    + assert (Hst : _state s1 = PAYLOAD).
      { simpl. destruct (_plCntr s + 1 =? _currPlSz s) eqn:E; [lia | done]. }
      destruct (IH s1 (Z.succ k) Hst) as [Hall Heq]; try (simpl; lia).
      split.
      * apply Forall_cons. split; [simpl; lia|].
        eapply Forall_impl; [exact Hall|]. simpl. intros w Hw. lia.
      * intros Hc. simpl. rewrite Hk. f_equal. apply Heq.
        rewrite (consume_capacity _ _ _ Hstep). lia.
  - rewrite (consume_PAYLOAD_overrun s b Hs Hout). simpl.
    split; [|lia]. apply Forall_singleton. simpl. lia.
Qed.

(** C10: after a length byte [len] with [2 <= len <= maxPayloadSize], every
    store into [payload] made while the (at most [len - 1]) payload bytes are
    accumulated has an index that is at least 0, below the expected size
    [len - 1] and below [maxPayloadSize]; with a buffer of [maxPayloadSize]
    cells the stores are those of the payload bytes at the indices 0, 1, ...
    in order, and none of them is out of bounds. *)
Theorem payload_stores_in_bounds (s : SerialReader) (len : byte) (p : list byte) :
  _state s = HEADER2 →
  2 ≤ byteZ len ≤ maxPayloadSize →
  Z.of_nat (length p) ≤ byteZ len - 1 →
  Forall (λ w, 0 ≤ w.1 < byteZ len - 1 ∧ w.1 < maxPayloadSize) (stores s (len :: p))
  ∧ (capacity s = maxPayloadSize →
     stores s (len :: p) = zip (seqZ 0 (Z.of_nat (length p))) p
     ∧ is_Some (poll (1 + length p) s (len :: p))).
Proof.
  intros Hs Hlen Hp.
  assert (Hacc := consume_HEADER2_accept s len Hs ltac:(lia)).
  set (s0 := mkSerialReader _ _ _ _ _ _) in Hacc.
  assert (Hnone : payload_store s len = None).
  { unfold payload_store. by rewrite Hs. }
  rewrite stores_cons, Hacc, Hnone. simpl app.
  destruct (stores_payload p s0 0) as [Hall Heq]; try (simpl; lia); [done|].
  split.
  - eapply Forall_impl; [exact Hall|]. simpl. intros w Hw. lia.
  - intros Hcap. split.
    + apply Heq. unfold capacity in *. simpl. lia.
    + change (1 + length p)%nat with (S (length p)).
      rewrite (poll_cons _ _ _ _ _ Hacc).
      destruct (poll_payload p s0 0%nat []) as (s1 & Hpoll & _).
      { done. }
      { done. }
      { simpl. lia. }
      { simpl. lia. }
      { unfold capacity in *. simpl. lia. }
      { apply wrap8_range. }
      rewrite app_nil_r in Hpoll. by rewrite Hpoll.
Qed.

(** *** Frames are the only way to WAITFORHANDLING *)

Lemma byteZ_inj (a b : byte) : byteZ a = byteZ b → a = b.
Proof.
  unfold byteZ. intros Hab. apply N2Z.inj in Hab.
  pose proof (Byte.of_to_N a) as Ha. pose proof (Byte.of_to_N b) as Hb.
  rewrite Hab in Ha. congruence.
Qed.

Lemma sumZ_app (p1 p2 : list byte) : sumZ (p1 ++ p2) = sumZ p1 + sumZ p2.
Proof.
  induction p1 as [|b p1 IH]; [done|].
  simpl app. rewrite !sumZ_cons, IH. lia.
Qed.

Lemma packet_sum_snoc (len b : byte) (p : list byte) :
  wrap8 (packet_sum len p + byteZ b) = packet_sum len (p ++ [b]).
Proof.
  unfold packet_sum. rewrite wrap8_add_l, sumZ_app. f_equal.
  change (sumZ [b]) with (byteZ b + 0). lia.
Qed.

(** The bytes behind the ones consumed do not influence the calls before. *)
Lemma poll_exact (bs : list byte) :
  ∀ (s : SerialReader) (q : list byte),
    poll (length bs) s (bs ++ q) =
      match poll (length bs) s bs with
      | Some (rs, s', _) => Some (rs, s', q)
      | None => None
      end.
Proof.
  induction bs as [|b bs IH]; intros s q; [done|].
  simpl length. simpl app. rewrite !poll_S, !readUpdate_available.
  destruct (consume s b) as [s1|]; [|done].
  rewrite IH. by destruct (poll (length bs) s1 bs) as [[[rs s2] q2]|].
Qed.

Lemma poll_snoc (bs : list byte) (b : byte) (s : SerialReader) :
  poll (length (bs ++ [b])) s (bs ++ [b]) =
    match poll (length bs) s bs with
    | Some (rs, s1, _) =>
        match consume s1 b with
        | Some s2 => Some (rs ++ [Ret (retval s2)], s2, [])
        | None => None
        end
    | None => None
    end.
Proof.
  rewrite length_app. simpl length. rewrite poll_app, poll_exact.
  destruct (poll (length bs) s bs) as [[[rs s1] q1]|]; [|done].
  rewrite poll_S, readUpdate_available.
  by destruct (consume s1 b).
Qed.

Lemma frame_history_consume (s s' : SerialReader) (bs : list byte) (b : byte) :
  frame_history INCOMING_HEADER_BYTE maxPayloadSize s bs →
  consume s b = Some s' →
  frame_history INCOMING_HEADER_BYTE maxPayloadSize s' (bs ++ [b]).
Proof.
  unfold frame_history. intros Hh Hc.
  pose proof (byteZ_range b) as Hb.
  destruct (_state s) eqn:Hs.
  - rewrite consume_WAITFORPACKET in Hc by done. injection Hc as <-.
    destruct (byteZ b =? HDR) eqn:E; simpl; [|by rewrite Hs].
    exists bs. f_equal. f_equal. apply byteZ_inj. lia.
  - rewrite consume_HEADER1 in Hc by done. injection Hc as <-.
    destruct Hh as [pre ->].
    destruct (byteZ b =? HDR) eqn:E; simpl; [|done].
    exists pre. rewrite <- app_assoc. simpl. do 3 f_equal. apply byteZ_inj. lia.
  - destruct Hh as [pre ->].
    destruct (decide (1 ≤ byteZ b ≤ maxPayloadSize)).
    + rewrite consume_HEADER2_accept in Hc by done. injection Hc as <-. simpl.
      exists pre, b, []. rewrite <- app_assoc. simpl.
      repeat split; try done; try lia.
      unfold packet_sum. simpl. by rewrite Z.add_0_r.
    + rewrite consume_HEADER2_reject in Hc by (done || lia).
      by injection Hc as <-.
  - destruct Hh as (pre & len & p & -> & Hlen & Hsz & Hcn & Hck & Hbuf).
    destruct (decide (0 ≤ _plCntr s < capacity s)) as [Hin|Hout];
      [| by rewrite consume_PAYLOAD_overrun in Hc].
    rewrite consume_PAYLOAD in Hc by done. injection Hc as <-.
    assert (Hlook : (<[length p := b]> (payload s)) !! length p = Some b).
    { apply list_lookup_insert_eq. unfold capacity in Hin. lia. }
    assert (Hbuf' : take (length (p ++ [b]))
                      (<[Z.to_nat (_plCntr s) := b]> (payload s)) = p ++ [b]).
    { rewrite Hcn, Nat2Z.id, length_app. simpl length.
      replace (length p + 1)%nat with (S (length p)) by lia.
      rewrite (take_S_r _ _ _ Hlook), take_insert_ge by lia. by rewrite Hbuf. }
    destruct (_plCntr s + 1 =? _currPlSz s) eqn:E; simpl.
    + exists pre, len, (p ++ [b]). rewrite <- !app_assoc. simpl.
      rewrite length_app in *. simpl length in *.
      repeat split; try done; try lia.
      rewrite Hck. apply packet_sum_snoc.
    + exists pre, len, (p ++ [b]). rewrite <- !app_assoc. simpl.
      rewrite length_app in *. simpl length in *.
      repeat split; try done; try lia.
      rewrite Hck. apply packet_sum_snoc.
  - destruct Hh as (pre & len & p & -> & Hlen & Hp & Hsz & Hck & Hbuf).
    rewrite consume_CHKSUM in Hc by done. injection Hc as <-.
    destruct (_chksum s =? byteZ b) eqn:E; simpl; [|done].
    exists pre, len, p, b, []. unfold packet.
    rewrite <- !app_assoc. simpl. rewrite ?app_nil_r.
    repeat split; try done; try lia.
  - destruct Hh as (pre & len & p & chk & rest & -> & Hlen & Hp & Hsz & Hck & Hbuf).
    rewrite consume_WAITFORHANDLING in Hc by done. injection Hc as <-. simpl.
    rewrite Hs. exists pre, len, p, chk, (rest ++ [b]).
    repeat split; try done; try lia.
    unfold packet. simpl. rewrite <- !app_assoc. simpl.
    by rewrite <- !app_assoc.
Qed.

Lemma frame_history_poll (bs : list byte) :
  ∀ (s s' : SerialReader) (rs : list Returned) (q : list byte),
    _state s = WAITFORPACKET →
    poll (length bs) s bs = Some (rs, s', q) →
    frame_history INCOMING_HEADER_BYTE maxPayloadSize s' bs.
Proof.
  induction bs as [|b bs IH] using rev_ind; intros s s' rs q Hs Hp.
  - simpl in Hp. injection Hp as _ <- _. unfold frame_history. by rewrite Hs.
  - rewrite poll_snoc in Hp.
    destruct (poll (length bs) s bs) as [[[rs1 s1] q1]|] eqn:Hp1; [|done].
    destruct (consume s1 b) as [s2|] eqn:Hc; [|done].
    injection Hp as _ <- _.
    eapply frame_history_consume; [|exact Hc]. by eapply IH.
Qed.

(** X2: a decoder that waited for a header and, without any acknowledgment,
    is in WAITFORHANDLING after the bytes [bs] has consumed a complete frame:
    [bs] is some bytes, then header, header, a length byte [len] with
    [2 <= len <= maxPayloadSize], [len - 1] payload bytes and their
    modulo-256 checksum, then the bytes dropped since; the expected length is
    [len - 1] and the first [len - 1] cells of [payload] hold that payload. *)
Theorem ready_only_after_frame (s s' : SerialReader) (bs q : list byte)
    (rs : list Returned) :
  _state s = WAITFORPACKET →
  poll (length bs) s bs = Some (rs, s', q) →
  _state s' = WAITFORHANDLING →
  ∃ pre len p chk rest,
    bs = pre ++ packet len p chk ++ rest
    ∧ 2 ≤ byteZ len ≤ maxPayloadSize
    ∧ Z.of_nat (length p) = byteZ len - 1
    ∧ byteZ chk = packet_sum len p
    ∧ _currPlSz s' = Z.of_nat (length p)
    ∧ take (length p) (payload s') = p.
Proof.
  intros Hs Hp Hs'.
  pose proof (frame_history_poll bs s s' rs q Hs Hp) as Hh.
  unfold frame_history in Hh. rewrite Hs' in Hh.
  destruct Hh as (pre & len & p & chk & rest & Hbs & Hlen & Hpl & Hsz & Hck & Hbuf).
  exists pre, len, p, chk, rest. repeat split; try done; lia.
Qed.

(** *** The constructor *)

Lemma control_eq_sym (a b : SerialReader) : control_eq a b → control_eq b a.
Proof.
  intros (Hst & Hcap & Hfld). split; [done|]. split; [done|].
  rewrite <- Hst. destruct (_state a); try done;
    by destruct Hfld as (-> & -> & ->).
Qed.

Lemma control_eq_returns (a b : SerialReader) (n : nat) (q : list byte) :
  control_eq a b →
  (fst ∘ fst) <$> poll n a q = (fst ∘ fst) <$> poll n b q.
Proof.
  intros Hab. pose proof (control_eq_sym _ _ Hab) as Hba.
  destruct (poll n a q) as [[[rs a'] q']|] eqn:Hpa.
  - by destruct (control_eq_poll _ _ _ _ _ _ _ Hab Hpa) as (b' & -> & _).
  - destruct (poll n b q) as [[[rs b'] q']|] eqn:Hpb; [|done].
    destruct (control_eq_poll _ _ _ _ _ _ _ Hba Hpb) as (a' & Hpa' & _).
    congruence.
Qed.

(** X1: the constructor sets [_state] only, and that is enough: two decoder
    objects with buffers of the same size, whatever their other members held
    before construction, return the same values call after call on the same
    serial input and store the same bytes at the same indices. *)
Theorem construct_ignores_members (mem1 mem2 : SerialReader) (n : nat)
    (q : list byte) :
  capacity mem1 = capacity mem2 →
  (fst ∘ fst) <$> poll n (construct mem1) q
  = (fst ∘ fst) <$> poll n (construct mem2) q
  ∧ stores (construct mem1) q = stores (construct mem2) q.
Proof.
  intros Hcap.
  assert (Hctl : control_eq (construct mem1) (construct mem2)) by (by split).
  split; [by apply control_eq_returns | by apply control_eq_stores].
Qed.

(** *** What a call can return *)

(** X3: in a state of the running firmware, a call that consumes a byte
    returns either -1 or a payload length between 1 and
    [maxPayloadSize - 1]; in the second case the decoder is in
    WAITFORHANDLING and the length is both its expected length and its fill
    counter. *)
Theorem returned_length_in_range (s s' : SerialReader) (q q' : list byte)
    (v : Z) :
  reachable s →
  readUpdate s q = Some (Ret v, s', q') →
  v = -1
  ∨ (1 ≤ v < maxPayloadSize
     ∧ _state s' = WAITFORHANDLING
     ∧ _currPlSz s' = v
     ∧ _plCntr s' = v).
Proof.
  intros Hr Hru.
  pose proof (readUpdate_reachable _ _ _ _ _ Hr Hru) as Hr'.
  destruct (reachable_inv s' Hr') as [_ Hinv].
  destruct q as [|b q]; [done|].
  destruct (readUpdate_one_step _ _ _ _ _ _ Hru) as (_ & _ & Hv).
  injection Hv as ->.
  case_decide as Hst; [|by left].
  right. rewrite Hst in Hinv. repeat split; try done; lia.
Qed.

(** *** Getting back in step *)

(** Bytes other than the header byte are skipped while waiting for a header. *)
Lemma poll_junk (junk : list byte) :
  ∀ (s : SerialReader) (q : list byte),
    _state s = WAITFORPACKET →
    Forall (λ b, b ≠ INCOMING_HEADER_BYTE) junk →
    ∃ s',
      poll (length junk) s (junk ++ q) =
        Some (replicate (length junk) (Ret (-1)), s', q)
      ∧ _state s' = WAITFORPACKET
      ∧ payload s' = payload s.
Proof.
  induction junk as [|b junk IH]; intros s q Hs Hj.
  - by exists s.
  - apply Forall_cons in Hj as [Hb Hj].
    assert (Hne : (byteZ b =? HDR) = false).
    { apply Z.eqb_neq. intros Heq. by apply Hb, byteZ_inj. }
    pose proof (consume_WAITFORPACKET s b Hs) as Hc. rewrite Hne in Hc.
    destruct (IH (set_currByte b s) q Hs Hj) as (s' & Hp & Hs' & Hbuf).
    exists s'. simpl length. simpl app.
    rewrite (poll_cons _ _ _ _ _ Hc), Hp, retval_other
      by (simpl; by rewrite Hs).
    by repeat split.
Qed.

(** X4: bytes other than the header byte that arrive before a frame are
    skipped: the calls that consume them return -1 and the frame that follows
    is decoded as if it had come first. *)
Theorem junk_before_frame_skipped (s : SerialReader) (junk : list byte)
    (len chk : byte) (p q : list byte) :
  awaiting_sync s →
  Forall (λ b, b ≠ INCOMING_HEADER_BYTE) junk →
  2 ≤ byteZ len ≤ maxPayloadSize →
  Z.of_nat (length p) = byteZ len - 1 →
  byteZ chk = packet_sum len p →
  ∃ s',
    poll (length junk + length (packet len p chk)) s
      (junk ++ packet len p chk ++ q) =
      Some (replicate (length junk) (Ret (-1))
              ++ replicate (3 + length p) (Ret (-1)) ++ [Ret (byteZ len - 1)],
            s', q)
    ∧ _state s' = WAITFORHANDLING
    ∧ _currPlSz s' = byteZ len - 1
    ∧ take (length p) (payload s') = p.
Proof.
  intros [Hs Hcap] Hj Hlen Hp Hchk.
  destruct (poll_junk junk s (packet len p chk ++ q) Hs Hj) as (s1 & Hp1 & Hs1 & Hbuf1).
  assert (Hs1' : awaiting_sync s1).
  { split; [done|]. unfold capacity in *. by rewrite Hbuf1. }
  destruct (poll_frame_ready s1 len chk p q Hs1' Hlen Hp Hchk) as (s' & Hp2 & Hrest).
  exists s'. by rewrite poll_app, Hp1, Hp2.
Qed.

(** A frame whose checksum byte is wrong is consumed whole and dropped. *)
Lemma poll_frame_dropped (s : SerialReader) (len chk : byte) (p q : list byte) :
  awaiting_sync s →
  2 ≤ byteZ len ≤ maxPayloadSize →
  Z.of_nat (length p) = byteZ len - 1 →
  byteZ chk ≠ packet_sum len p →
  ∃ s',
    poll (length (packet len p chk)) s (packet len p chk ++ q) =
      Some (replicate (length (packet len p chk)) (Ret (-1)), s', q)
    ∧ awaiting_sync s'.
Proof.
  intros [Hs Hcap] Hlen Hp Hchk.
  destruct (poll_frame_body s len p (chk :: q)) as (s1 & Hpoll & Hst & Hsz & Hcn & Hck & Hbuf);
    try (done || lia).
  exists (set_state WAITFORPACKET (set_currByte chk s1)). split.
  - unfold packet. simpl length. rewrite length_app. simpl length.
    replace (S (S (S (length p + 1)))) with ((3 + length p) + 1)%nat by lia.
    rewrite poll_app.
    change ((INCOMING_HEADER_BYTE :: INCOMING_HEADER_BYTE :: len :: p ++ [chk]) ++ q)
      with (INCOMING_HEADER_BYTE :: INCOMING_HEADER_BYTE :: len :: (p ++ [chk]) ++ q).
    rewrite <- app_assoc. simpl app at 2. rewrite Hpoll.
    rewrite poll_chksum by done.
    replace (_chksum s1 =? byteZ chk) with false
      by (symmetry; apply Z.eqb_neq; congruence).
    by rewrite (replicate_add (3 + length p) 1).
  - split; [done|]. unfold capacity in *. simpl. rewrite Hbuf.
    rewrite length_app, length_drop. lia.
Qed.

(** X5: a frame with a wrong checksum byte costs that frame only: every call
    that consumes one of its bytes returns -1, and the well-formed frame that
    follows it on the wire is decoded. *)
Theorem bad_checksum_costs_one_frame (s : SerialReader) (len1 chk1 : byte)
    (p1 : list byte) (len2 chk2 : byte) (p2 q : list byte) :
  awaiting_sync s →
  2 ≤ byteZ len1 ≤ maxPayloadSize →
  Z.of_nat (length p1) = byteZ len1 - 1 →
  byteZ chk1 ≠ packet_sum len1 p1 →
  2 ≤ byteZ len2 ≤ maxPayloadSize →
  Z.of_nat (length p2) = byteZ len2 - 1 →
  byteZ chk2 = packet_sum len2 p2 →
  ∃ s',
    poll (length (packet len1 p1 chk1) + length (packet len2 p2 chk2)) s
      (packet len1 p1 chk1 ++ packet len2 p2 chk2 ++ q) =
      Some (replicate (length (packet len1 p1 chk1)) (Ret (-1))
              ++ replicate (3 + length p2) (Ret (-1)) ++ [Ret (byteZ len2 - 1)],
            s', q)
    ∧ _state s' = WAITFORHANDLING
    ∧ _currPlSz s' = byteZ len2 - 1
    ∧ take (length p2) (payload s') = p2.
Proof.
  intros Hs Hlen1 Hp1 Hchk1 Hlen2 Hp2 Hchk2.
  destruct (poll_frame_dropped s len1 chk1 p1 (packet len2 p2 chk2 ++ q) Hs Hlen1 Hp1 Hchk1)
    as (s1 & Hpoll1 & Hs1).
  destruct (poll_frame_ready s1 len2 chk2 p2 q Hs1 Hlen2 Hp2 Hchk2) as (s' & Hpoll2 & Hrest).
  exists s'. by rewrite poll_app, Hpoll1, Hpoll2.
Qed.

(** X6: [payloadHandled] re-arms the decoder in whatever state of the running
    firmware it is called, also in the middle of a frame: the next
    well-formed frame is decoded. *)
Theorem handled_rearms (s : SerialReader) (len chk : byte) (p q : list byte) :
  reachable s →
  2 ≤ byteZ len ≤ maxPayloadSize →
  Z.of_nat (length p) = byteZ len - 1 →
  byteZ chk = packet_sum len p →
  ∃ s',
    poll (length (packet len p chk)) (payloadHandled s) (packet len p chk ++ q) =
      Some (replicate (3 + length p) (Ret (-1)) ++ [Ret (byteZ len - 1)], s', q)
    ∧ _state s' = WAITFORHANDLING
    ∧ _currPlSz s' = byteZ len - 1
    ∧ take (length p) (payload s') = p.
Proof.
  intros Hr Hlen Hp Hchk.
  destruct (reachable_inv s Hr) as [Hcap _].
  by apply poll_frame_ready.
Qed.

(** X7: decoding a frame overwrites the first [len - 1] cells of [payload]
    and nothing else: the cells behind them keep what they held, and the
    buffer keeps its size. *)
Theorem frame_overwrites_prefix_only (s : SerialReader) (len chk : byte)
    (p : list byte) :
  awaiting_sync s →
  2 ≤ byteZ len ≤ maxPayloadSize →
  Z.of_nat (length p) = byteZ len - 1 →
  byteZ chk = packet_sum len p →
  ∃ rs s',
    poll (length (packet len p chk)) s (packet len p chk) = Some (rs, s', [])
    ∧ payload s' = p ++ drop (length p) (payload s)
    ∧ length (payload s') = length (payload s).
Proof.
  intros [Hs Hcap] Hlen Hp Hchk.
  pose proof (poll_frame s len chk p [] Hs Hlen Hp ltac:(lia) Hchk) as Hpoll.
  rewrite app_nil_r in Hpoll.
  eexists _, _. split; [exact Hpoll|]. simpl. split; [done|].
  unfold capacity in Hcap. rewrite length_app, length_drop. lia.
Qed.

(** X8: after a length byte of 1 the decoder expects no payload byte and
    awaits no checksum: it stores every byte that follows, each call
    returning -1, and once [maxPayloadSize] bytes are stored the next byte is
    stored past the end of [payload]. *)
Theorem length_one_never_completes (s : SerialReader) (len x : byte)
    (bs q : list byte) :
  awaiting_sync s →
  byteZ len = 1 →
  1 ≤ maxPayloadSize →
  Z.of_nat (length bs) ≤ maxPayloadSize →
  (∃ s',
      poll (3 + length bs) s
        (INCOMING_HEADER_BYTE :: INCOMING_HEADER_BYTE :: len :: bs ++ q) =
        Some (replicate (3 + length bs) (Ret (-1)), s', q)
      ∧ _state s' = PAYLOAD
      ∧ _currPlSz s' = 0
      ∧ _plCntr s' = Z.of_nat (length bs))
  ∧ (Z.of_nat (length bs) = maxPayloadSize →
     poll (3 + length bs + 1) s
       (INCOMING_HEADER_BYTE :: INCOMING_HEADER_BYTE :: len :: bs ++ x :: q) = None).
Proof.
  intros Hs Hlen HM Hbs. split; [|by apply length_one_overruns].
  destruct Hs as [Hs Hcap].
  rewrite poll_app, poll_header by (done || lia).
  set (s0 := mkSerialReader _ _ _ _ _ _).
  destruct (poll_payload_unbounded bs s0 q) as (s' & Hp & Hs' & Hsz & Hcn & _);
    try done; try (simpl; lia).
  { unfold capacity in *. simpl. lia. }
  exists s'. rewrite Hp.
  split; [done|]. split; [done|]. split; [done|].
  rewrite Hcn. simpl. lia.
Qed.

(** X9: in a state of the running firmware a call that consumes a byte
    stores outside [payload] in one situation only: the decoder accumulates
    with expected length 0 (the length byte was 1) and [maxPayloadSize] bytes
    are already stored.  In every other state the call is well defined. *)
Theorem overrun_only_after_length_one (s : SerialReader) (b : byte)
    (q : list byte) :
  reachable s →
  readUpdate s (b :: q) = None
  ↔ _state s = PAYLOAD ∧ _currPlSz s = 0 ∧ _plCntr s = maxPayloadSize.
Proof.
  intros Hr. destruct (reachable_inv s Hr) as [Hcap Hinv].
  rewrite readUpdate_available. split.
  - destruct (consume s b) as [s'|] eqn:Hc; [done|]. intros _.
    apply consume_None_iff in Hc as (i & Hi & Hout).
    unfold payload_store in Hi.
    destruct (_state s); try done.
    injection Hi as <-. split; [done | lia].
  - intros (Hs & Hsz & Hcn).
    by rewrite consume_PAYLOAD_overrun by (done || lia).
Qed.

End Properties.

(** ** The properties on the concrete configuration *)

Lemma valid_frame_decodes_witness :
  (∃ s',
      poll ex_header ex_maxPayloadSize 6 ex_reader ex_frame =
        Some ([Ret (-1); Ret (-1); Ret (-1); Ret (-1); Ret (-1); Ret 2], s', [])
      ∧ _state s' = WAITFORHANDLING
      ∧ _currPlSz s' = 2
      ∧ take 2 (payload s') = [x10; x20])
  ∧ (∃ s',
      poll ex_header ex_maxPayloadSize 6 ex_reader ex_frame =
        Some ([Ret (-1); Ret (-1); Ret (-1); Ret (-1); Ret (-1); Ret 2], s', [])
      ∧ _state s' = WAITFORHANDLING
      ∧ _currPlSz s' = 2
      ∧ take 2 (payload s') = [x10; x20]).
Proof.
  destruct (valid_frame_decodes ex_header ex_maxPayloadSize) as [Hgen Hex].
  split.
  - apply (Hgen ex_reader x03 x87 [x10; x20] []).
    + split; reflexivity.
    + vm_compute. split; discriminate.
    + reflexivity.
    + reflexivity.
  - apply (Hex ex_reader []).
    + reflexivity.
    + vm_compute. discriminate.
    + split; reflexivity.
Defined.

(** C1, as stated, fails.  The frame of the specification's scenario carries
    0xF9, which is not the modulo-256 sum 0x87 of its bytes: the decoder drops
    it and waits for a header again.  A frame with length byte 1 passes the
    length test but never leaves PAYLOAD, its checksum byte being stored as
    payload.  A frame with length byte [maxPayloadSize + 1] is rejected at the
    length byte. *)
Lemma spec_frame_not_decoded :
  match poll ex_header ex_maxPayloadSize 6 ex_reader spec_frame with
  | Some (rs, s', q) => rs = replicate 6 (Ret (-1)) ∧ _state s' = WAITFORPACKET ∧ q = []
  | None => False
  end
  ∧ (byteZ x55 = packet_sum ex_header x01 []
     ∧ match poll ex_header ex_maxPayloadSize 4 ex_reader ex_frame_len1 with
       | Some (rs, s', q) => rs = replicate 4 (Ret (-1)) ∧ _state s' = PAYLOAD ∧ q = []
       | None => False
       end)
  ∧ (byteZ x81 = packet_sum ex_header x09 [x01; x02; x03; x04; x05; x06; x07; x08]
     ∧ match poll ex_header ex_maxPayloadSize 12 ex_reader ex_frame_len9 with
       | Some (rs, s', q) => rs = replicate 12 (Ret (-1)) ∧ _state s' = WAITFORPACKET ∧ q = []
       | None => False
       end).
Proof. vm_compute. repeat split. Qed.

(** The example states are states of the running firmware. *)
Lemma ex_states_reachable :
  reachable ex_header ex_maxPayloadSize ex_reader
  ∧ reachable ex_header ex_maxPayloadSize ex_header1
  ∧ reachable ex_header ex_maxPayloadSize ex_header2
  ∧ reachable ex_header ex_maxPayloadSize ex_midway
  ∧ reachable ex_header ex_maxPayloadSize ex_chksum
  ∧ reachable ex_header ex_maxPayloadSize ex_ready
  ∧ reachable ex_header ex_maxPayloadSize ex_stuck.
Proof.
  assert (H0 : reachable ex_header ex_maxPayloadSize ex_reader)
    by (by apply reach_construct).
  split; [exact H0|].
  repeat split.
  - eapply (poll_reachable _ _ 1 ex_reader _ ex_frame); [exact H0 | reflexivity].
  - eapply (poll_reachable _ _ 2 ex_reader _ ex_frame); [exact H0 | reflexivity].
  - eapply (poll_reachable _ _ 4 ex_reader _ ex_frame); [exact H0 | reflexivity].
  - eapply (poll_reachable _ _ 5 ex_reader _ ex_frame); [exact H0 | reflexivity].
  - eapply (poll_reachable _ _ 6 ex_reader _ ex_frame); [exact H0 | reflexivity].
  - eapply (poll_reachable _ _ 4 ex_reader _ ex_frame_len1); [exact H0 | reflexivity].
Qed.

Lemma fill_count_bounded_witness :
  0 ≤ _plCntr ex_midway ≤ _currPlSz ex_midway
  ∧ _currPlSz ex_midway ≤ ex_maxPayloadSize
  ∧ ∀ b i v, payload_store ex_midway b = Some (i, v) →
             i < _currPlSz ex_midway ∧ 0 ≤ i < capacity ex_midway.
Proof.
  apply (fill_count_bounded ex_header ex_maxPayloadSize ex_midway).
  - apply ex_states_reachable.
  - left. reflexivity.
  - vm_compute. discriminate.
Defined.

(** C2, as stated, fails.  After [ex_frame] has been decoded and acknowledged
    the fill counter is 2 and the expected length is -1.  After the frame
    with length byte 1 the fill counter is 1 and the expected length 0; the
    decoder keeps storing, and the eighth further byte is stored at index 8
    of the 8-byte buffer. *)
Lemma fill_count_above_expected :
  (reachable ex_header ex_maxPayloadSize (payloadHandled ex_ready)
   ∧ _plCntr (payloadHandled ex_ready) = 2
   ∧ _currPlSz (payloadHandled ex_ready) = -1)
  ∧ (reachable ex_header ex_maxPayloadSize ex_stuck
     ∧ _plCntr ex_stuck = 1
     ∧ _currPlSz ex_stuck = 0
     ∧ capacity ex_stuck = 8
     ∧ stores ex_header ex_maxPayloadSize ex_stuck (replicate 8 x00) =
         [(1, x00); (2, x00); (3, x00); (4, x00); (5, x00); (6, x00);
          (7, x00); (8, x00)]
     ∧ poll ex_header ex_maxPayloadSize 8 ex_stuck (replicate 8 x00) = None).
Proof.
  split.
  - split; [|by split]. apply reach_handled, ex_states_reachable.
  - split; [apply ex_states_reachable|]. by repeat split.
Qed.

Lemma length_byte_bounds_witness :
  consume ex_header ex_maxPayloadSize ex_header2 x00 =
    Some (set_state WAITFORPACKET (set_currByte x00 ex_header2))
  ∧ consume ex_header ex_maxPayloadSize ex_header2 x09 =
      Some (set_state WAITFORPACKET (set_currByte x09 ex_header2))
  ∧ consume ex_header ex_maxPayloadSize ex_header2 x0a =
      Some (set_state WAITFORPACKET (set_currByte x0a ex_header2))
  ∧ ∃ s',
      poll ex_header ex_maxPayloadSize 8 ex_header2
        [x08; x01; x02; x03; x04; x05; x06; x07] =
        Some (replicate 8 (Ret (-1)), s', [])
      ∧ _state s' = CHKSUM
      ∧ _currPlSz s' = 7
      ∧ _plCntr s' = 7
      ∧ take 7 (payload s') = [x01; x02; x03; x04; x05; x06; x07].
Proof.
  split; [|split; [|split]].
  - apply (proj1 (length_byte_bounds ex_header ex_maxPayloadSize
                    ex_header2 x00 eq_refl)).
    reflexivity.
  - apply (proj1 (proj2 (length_byte_bounds ex_header ex_maxPayloadSize
                           ex_header2 x09 eq_refl))).
    reflexivity.
  - apply (proj1 (proj2 (length_byte_bounds ex_header ex_maxPayloadSize
                           ex_header2 x0a eq_refl))).
    reflexivity.
  - apply (proj2 (proj2 (length_byte_bounds ex_header ex_maxPayloadSize
                           ex_header2 x08 eq_refl))
             eq_refl ltac:(vm_compute; discriminate) eq_refl
             [x01; x02; x03; x04; x05; x06; x07] [] eq_refl).
Defined.

(** C3, as stated, fails.  With [maxPayloadSize = 8] the length byte 9 is
    rejected, and the length byte 1 is accepted: the decoder starts to
    accumulate a payload of expected length 0. *)
Lemma length_byte_edges :
  consume ex_header ex_maxPayloadSize ex_header2 x09 =
    Some (mkSerialReader WAITFORPACKET x09 0 0 0 (replicate 8 x00))
  ∧ consume ex_header ex_maxPayloadSize ex_header2 x01 =
      Some (mkSerialReader PAYLOAD x01 0 0 85 (replicate 8 x00)).
Proof. split; reflexivity. Qed.

Lemma framing_error_resyncs_witness :
  (readUpdate ex_header ex_maxPayloadSize ex_header1 [x00] =
     Some (Ret (-1), set_state WAITFORPACKET (set_currByte x00 ex_header1), []))
  ∧ (readUpdate ex_header ex_maxPayloadSize ex_header2 [x09] =
       Some (Ret (-1), set_state WAITFORPACKET (set_currByte x09 ex_header2), []))
  ∧ (readUpdate ex_header ex_maxPayloadSize ex_chksum [xf9] =
       Some (Ret (-1), set_state WAITFORPACKET (set_currByte xf9 ex_chksum), [])).
Proof.
  split; [|split].
  - apply (framing_error_resyncs ex_header ex_maxPayloadSize ex_header1 x00 []).
    left. split; [reflexivity | vm_compute; discriminate].
  - apply (framing_error_resyncs ex_header ex_maxPayloadSize ex_header2 x09 []).
    right. left. split; [reflexivity | right; reflexivity].
  - apply (framing_error_resyncs ex_header ex_maxPayloadSize ex_chksum xf9 []).
    right. right. split; [reflexivity | vm_compute; discriminate].
Defined.

Lemma ready_decoder_holds_payload_witness :
  ∃ s',
    poll ex_header ex_maxPayloadSize 3 ex_ready [x01; x02] =
      Some ([Ret 2; Ret 2; NoReturn], s', [])
    ∧ _state s' = WAITFORHANDLING
    ∧ _currPlSz s' = 2
    ∧ _plCntr s' = 2
    ∧ _chksum s' = 135
    ∧ payload s' = [x10; x20; x00; x00; x00; x00; x00; x00].
Proof.
  apply (ready_decoder_holds_payload ex_header ex_maxPayloadSize 3 ex_ready
           [x01; x02]).
  reflexivity.
Defined.

(** C6, as stated, fails: a decoder in WAITFORHANDLING called with the byte
    0x01 in the serial queue reads that byte; the queue is empty afterwards. *)
Lemma ready_decoder_consumes_byte :
  readUpdate ex_header ex_maxPayloadSize ex_ready [x01] =
    Some (Ret 2, set_currByte x01 ex_ready, [])
  ∧ [] ≠ [x01].
Proof. split; [reflexivity | discriminate]. Qed.

Lemma checksum_mod_256_witness :
  _chksum (mkSerialReader PAYLOAD x03 2 0 87 (replicate 8 x00)) =
    (byteZ ex_header + byteZ ex_header + byteZ x03) mod 256
  ∧ _chksum ex_chksum = (_chksum ex_midway + byteZ x20) mod 256
  ∧ (∃ s', consume ex_header ex_maxPayloadSize ex_chksum x87 = Some s'
           ∧ (_state s' = WAITFORHANDLING ∨ _state s' = WAITFORPACKET)
           ∧ (_state s' = WAITFORHANDLING ↔ byteZ x87 = _chksum ex_chksum))
  ∧ (∃ rs s',
       poll ex_header ex_maxPayloadSize
         (length (packet ex_header x03 [x10; x20] x87)) ex_reader
         (packet ex_header x03 [x10; x20] x87) = Some (rs, s', [])
       ∧ (_state s' = WAITFORHANDLING ∨ _state s' = WAITFORPACKET)
       ∧ (_state s' = WAITFORHANDLING ↔
          byteZ x87 =
            (byteZ ex_header + byteZ ex_header + byteZ x03 + sumZ [x10; x20])
              mod 256)).
Proof.
  destruct (checksum_mod_256 ex_header ex_maxPayloadSize) as (H1 & H2 & H3 & H4).
  split; [|split; [|split]].
  - apply (H1 ex_header2 _ x03); reflexivity.
  - apply (H2 ex_midway ex_chksum x20); reflexivity.
  - apply (H3 ex_chksum x87). reflexivity.
  - apply (H4 ex_reader x03 x87 [x10; x20]).
    + split; reflexivity.
    + vm_compute. split; discriminate.
    + reflexivity.
Defined.

Lemma resend_after_handled_witness :
  (∃ s2,
      poll ex_header ex_maxPayloadSize (length ex_frame) (payloadHandled ex_ready)
        ex_frame =
        Some ([Ret (-1); Ret (-1); Ret (-1); Ret (-1); Ret (-1); Ret 2], s2, [])
      ∧ _state s2 = WAITFORHANDLING
      ∧ last [Ret (-1); Ret (-1); Ret (-1); Ret (-1); Ret (-1); Ret 2] =
          Some (Ret (_currPlSz ex_ready))
      ∧ _currPlSz s2 = _currPlSz ex_ready
      ∧ payload s2 = payload ex_ready)
  ∧ (∃ rs s1 s2,
      poll ex_header ex_maxPayloadSize 6 ex_reader ex_frame = Some (rs, s1, [])
      ∧ poll ex_header ex_maxPayloadSize 6 (payloadHandled s1) ex_frame
        = Some (rs, s2, [])
      ∧ _state s1 = WAITFORHANDLING ∧ _state s2 = WAITFORHANDLING
      ∧ last rs = Some (Ret 2)
      ∧ _currPlSz s2 = _currPlSz s1
      ∧ payload s2 = payload s1).
Proof.
  destruct (resend_after_handled ex_header ex_maxPayloadSize) as [Hany Hframe].
  split.
  - apply (Hany ex_reader ex_ready ex_frame); reflexivity.
  - apply (Hframe ex_reader x03 x87 [x10; x20]).
    + split; reflexivity.
    + vm_compute. split; discriminate.
    + reflexivity.
    + reflexivity.
Defined.

Lemma payload_stores_in_bounds_witness :
  Forall (λ w, 0 ≤ w.1 < byteZ x03 - 1 ∧ w.1 < ex_maxPayloadSize)
    (stores ex_header ex_maxPayloadSize ex_header2 [x03; x10; x20])
  ∧ stores ex_header ex_maxPayloadSize ex_header2 [x03; x10; x20] =
      [(0, x10); (1, x20)]
  ∧ is_Some (poll ex_header ex_maxPayloadSize 3 ex_header2 [x03; x10; x20]).
Proof.
  destruct (payload_stores_in_bounds ex_header ex_maxPayloadSize ex_header2 x03
              [x10; x20]) as [Hall Hcap].
  - reflexivity.
  - vm_compute. split; discriminate.
  - vm_compute. discriminate.
  - split; [exact Hall | exact (Hcap eq_refl)].
Defined.

(** *** Further properties on the concrete configuration *)

Lemma construct_ignores_members_witness :
  (fst ∘ fst) <$> poll ex_header ex_maxPayloadSize 6
                    (construct (mkSerialReader CHKSUM xff 5 7 9 (replicate 8 xff)))
                    ex_frame
  = (fst ∘ fst) <$> poll ex_header ex_maxPayloadSize 6 ex_reader ex_frame
  ∧ stores ex_header ex_maxPayloadSize
      (construct (mkSerialReader CHKSUM xff 5 7 9 (replicate 8 xff))) ex_frame
    = stores ex_header ex_maxPayloadSize ex_reader ex_frame.
Proof.
  apply (construct_ignores_members ex_header ex_maxPayloadSize
           (mkSerialReader CHKSUM xff 5 7 9 (replicate 8 xff))
           (mkSerialReader WAITFORPACKET x00 0 0 0 (replicate 8 x00)) 6 ex_frame).
  reflexivity.
Defined.

Lemma ready_only_after_frame_witness :
  ∃ pre len p chk rest,
    ex_frame = pre ++ packet ex_header len p chk ++ rest
    ∧ 2 ≤ byteZ len ≤ ex_maxPayloadSize
    ∧ Z.of_nat (length p) = byteZ len - 1
    ∧ byteZ chk = packet_sum ex_header len p
    ∧ _currPlSz ex_ready = Z.of_nat (length p)
    ∧ take (length p) (payload ex_ready) = p.
Proof.
  apply (ready_only_after_frame ex_header ex_maxPayloadSize ex_reader ex_ready
           ex_frame []
           [Ret (-1); Ret (-1); Ret (-1); Ret (-1); Ret (-1); Ret 2]);
    reflexivity.
Defined.

Lemma returned_length_in_range_witness :
  2 = -1
  ∨ (1 ≤ 2 < ex_maxPayloadSize
     ∧ _state ex_ready = WAITFORHANDLING
     ∧ _currPlSz ex_ready = 2
     ∧ _plCntr ex_ready = 2).
Proof.
  apply (returned_length_in_range ex_header ex_maxPayloadSize ex_chksum ex_ready
           [x87] [] 2).
  - apply ex_states_reachable.
  - reflexivity.
Defined.

Lemma junk_before_frame_skipped_witness :
  ∃ s',
    poll ex_header ex_maxPayloadSize 8 ex_reader
      [x01; x02; xaa; xaa; x03; x10; x20; x87] =
      Some ([Ret (-1); Ret (-1); Ret (-1); Ret (-1); Ret (-1); Ret (-1);
             Ret (-1); Ret 2], s', [])
    ∧ _state s' = WAITFORHANDLING
    ∧ _currPlSz s' = 2
    ∧ take 2 (payload s') = [x10; x20].
Proof.
  apply (junk_before_frame_skipped ex_header ex_maxPayloadSize ex_reader
           [x01; x02] x03 x87 [x10; x20] []).
  - split; reflexivity.
  - repeat constructor; discriminate.
  - vm_compute. split; discriminate.
  - reflexivity.
  - reflexivity.
Defined.

Lemma bad_checksum_costs_one_frame_witness :
  ∃ s',
    poll ex_header ex_maxPayloadSize 12 ex_reader (spec_frame ++ ex_frame) =
      Some (replicate 6 (Ret (-1))
              ++ [Ret (-1); Ret (-1); Ret (-1); Ret (-1); Ret (-1); Ret 2],
            s', [])
    ∧ _state s' = WAITFORHANDLING
    ∧ _currPlSz s' = 2
    ∧ take 2 (payload s') = [x10; x20].
Proof.
  apply (bad_checksum_costs_one_frame ex_header ex_maxPayloadSize ex_reader
           x03 xf9 [x10; x20] x03 x87 [x10; x20] []).
  - split; reflexivity.
  - vm_compute. split; discriminate.
  - reflexivity.
  - vm_compute. discriminate.
  - vm_compute. split; discriminate.
  - reflexivity.
  - reflexivity.
Defined.

Lemma handled_rearms_witness :
  ∃ s',
    poll ex_header ex_maxPayloadSize 6 (payloadHandled ex_midway) ex_frame =
      Some ([Ret (-1); Ret (-1); Ret (-1); Ret (-1); Ret (-1); Ret 2], s', [])
    ∧ _state s' = WAITFORHANDLING
    ∧ _currPlSz s' = 2
    ∧ take 2 (payload s') = [x10; x20].
Proof.
  apply (handled_rearms ex_header ex_maxPayloadSize ex_midway x03 x87
           [x10; x20] []).
  - apply ex_states_reachable.
  - vm_compute. split; discriminate.
  - reflexivity.
  - reflexivity.
Defined.

Lemma frame_overwrites_prefix_only_witness :
  ∃ rs s',
    poll ex_header ex_maxPayloadSize 6
      (construct (mkSerialReader WAITFORPACKET x00 0 0 0 (replicate 8 xff)))
      ex_frame = Some (rs, s', [])
    ∧ payload s' = [x10; x20] ++ drop 2 (replicate 8 xff)
    ∧ length (payload s') = 8%nat.
Proof.
  apply (frame_overwrites_prefix_only ex_header ex_maxPayloadSize
           (construct (mkSerialReader WAITFORPACKET x00 0 0 0 (replicate 8 xff)))
           x03 x87 [x10; x20]).
  - split; reflexivity.
  - vm_compute. split; discriminate.
  - reflexivity.
  - reflexivity.
Defined.

Lemma length_one_never_completes_witness :
  (∃ s',
      poll ex_header ex_maxPayloadSize 11 ex_reader
        (xaa :: xaa :: x01 :: replicate 8 x55) =
        Some (replicate 11 (Ret (-1)), s', [])
      ∧ _state s' = PAYLOAD
      ∧ _currPlSz s' = 0
      ∧ _plCntr s' = 8)
  ∧ poll ex_header ex_maxPayloadSize 12 ex_reader
      (xaa :: xaa :: x01 :: replicate 8 x55 ++ [x55]) = None.
Proof.
  destruct (length_one_never_completes ex_header ex_maxPayloadSize ex_reader
              x01 x55 (replicate 8 x55) []) as [Hstuck Hover].
  - split; reflexivity.
  - reflexivity.
  - vm_compute. discriminate.
  - vm_compute. discriminate.
  - split; [exact Hstuck | exact (Hover eq_refl)].
Defined.

Lemma overrun_only_after_length_one_witness :
  readUpdate ex_header ex_maxPayloadSize ex_stuck [x00] = None
  ↔ _state ex_stuck = PAYLOAD
    ∧ _currPlSz ex_stuck = 0
    ∧ _plCntr ex_stuck = ex_maxPayloadSize.
Proof.
  apply (overrun_only_after_length_one ex_header ex_maxPayloadSize ex_stuck
           x00 []).
  apply ex_states_reachable.
Defined.
